(** * A Bloom filter and its capacity planner (src/main.cpp)

    Shallow embedding of the class [BloomFilter]: the bit array, the seeded
    mixing hash, [insert], [mightContain], the memory accounting and the
    static sizing function [optimalParameters]; and of the benchmark driver
    [analyzeConfiguration] with the configurations [printAnalysis] runs it
    on (the console report itself is not modelled, and the allocations
    of the driver are taken to succeed).

    Conventions of the embedding.
    - [size_t] is the 64-bit unsigned integer of an LP64 platform: a [Z] in
      [0, 2^64), every arithmetic result reduced with [wrap].
    - [char] is signed (x86-64 System V): a byte above 127 is a negative
      [int] and becomes a large [size_t] when it meets [hash] in the XOR.
    - [std::vector<bool>] is a [list bool]; [operator[]] does no bounds check,
      so an index outside the vector is undefined behaviour.
    - Undefined behaviour (index out of range, integer division or modulo by
      zero, conversion of an unrepresentable [double] to [size_t]) is the
      result [None]; a defined result is [Some].
    - A finite [double] is a real number and the arithmetic on finite doubles
      is taken exact (no rounding, no overflow to infinity). *)

From Stdlib Require Import ZArith Lia String Ascii Reals Lra DecimalString DecimalZ.
From stdpp Require Import base option list strings gmap.

Local Open Scope Z_scope.

(** ** size_t arithmetic *)

Definition size_t_modulus : Z := 2 ^ 64.

Definition wrap (z : Z) : Z := z mod size_t_modulus.

(** Conversion of a [char] to [size_t]: promotion of the signed byte to
    [int], then conversion to the unsigned 64-bit type. *)
Definition char_to_size_t (c : ascii) : Z :=
  let b := Z.of_N (N_of_ascii c) in
  if b <? 128 then b else wrap (b - 256).

(** ** The filter *)

Record BloomFilter : Type := mkBloomFilter {
  bitArray : list bool;
  numHashFunctions : Z
}.

(** [bitArray.size()] *)
Definition bitArray_size (f : BloomFilter) : Z := Z.of_nat (length (bitArray f)).

(** Body of the loop of [hash]:
    [hash ^= c; hash *= 0x5bd1e995; hash ^= hash >> 15;] *)
Definition mix (h : Z) (c : ascii) : Z :=
  let h1 := Z.lxor h (char_to_size_t c) in
  let h2 := wrap (h1 * 0x5bd1e995) in
  Z.lxor h2 (Z.shiftr h2 15).

(** [for (char c : item) { ... }] *)
Fixpoint hash_loop (item : string) (h : Z) : Z :=
  match item with
  | EmptyString => h
  | String c rest => hash_loop rest (mix h c)
  end.

(** [size_t hash(const std::string& item, size_t seed) const]: the final
    [hash % bitArray.size()] is undefined on an empty bit array. *)
Definition hash (f : BloomFilter) (item : string) (seed : Z) : option Z :=
  let h := hash_loop item seed in
  if bitArray_size f =? 0 then None else Some (h mod bitArray_size f).

(** Constructor [BloomFilter(size_t size, size_t numHashes)]:
    [bitArray(size, false), numHashFunctions(numHashes)]. *)
Definition new_BloomFilter (size numHashes : Z) : BloomFilter :=
  {| bitArray := replicate (Z.to_nat size) false;
     numHashFunctions := numHashes |}.

(** [bitArray[pos] = true] *)
Definition set_bit (bits : list bool) (pos : Z) : option (list bool) :=
  if (0 <=? pos) && (pos <? Z.of_nat (length bits))
  then Some (<[Z.to_nat pos := true]> bits)
  else None.

(** [bitArray[pos]] read *)
Definition get_bit (bits : list bool) (pos : Z) : option bool :=
  if 0 <=? pos then bits !! Z.to_nat pos else None.

(** The loop [for (size_t i = 0; i < numHashFunctions; ++i)] of [insert],
    entered at index [i] with [count] iterations left. *)
Fixpoint insert_loop (count : nat) (i : Z) (item : string) (f : BloomFilter)
  : option BloomFilter :=
  match count with
  | O => Some f
  | S count' =>
      pos ← hash f item i;
      bits ← set_bit (bitArray f) pos;
      insert_loop count' (wrap (i + 1)) item
        {| bitArray := bits; numHashFunctions := numHashFunctions f |}
  end.

(** [void insert(const std::string& item)] *)
Definition insert (f : BloomFilter) (item : string) : option BloomFilter :=
  insert_loop (Z.to_nat (numHashFunctions f)) 0 item f.

(** The loop of [mightContain], with its early [return false]. *)
Fixpoint mightContain_loop (count : nat) (i : Z) (item : string) (f : BloomFilter)
  : option bool :=
  match count with
  | O => Some true
  | S count' =>
      pos ← hash f item i;
      b ← get_bit (bitArray f) pos;
      if b : bool then mightContain_loop count' (wrap (i + 1)) item f
      else Some false
  end.

(** [bool mightContain(const std::string& item) const] *)
Definition mightContain (f : BloomFilter) (item : string) : option bool :=
  mightContain_loop (Z.to_nat (numHashFunctions f)) 0 item f.

(** [size_t getMemoryUsage() const]:
    [bitArray.size() / 8 + (bitArray.size() % 8 ? 1 : 0)] *)
Definition getMemoryUsage (f : BloomFilter) : Z :=
  wrap (bitArray_size f / 8 + (if bitArray_size f mod 8 =? 0 then 0 else 1)).

(** [size_t getBitArraySize() const] *)
Definition getBitArraySize (f : BloomFilter) : Z := bitArray_size f.

(** A caller's sequence of [insert] calls on one filter. *)
Fixpoint insert_all (f : BloomFilter) (items : list string) : option BloomFilter :=
  match items with
  | [] => Some f
  | item :: rest => f' ← insert f item; insert_all f' rest
  end.

(** Every bit set in [a] is set in [b]. *)
Definition bits_subset (a b : list bool) : Prop :=
  ∀ p : nat, a !! p = Some true → b !! p = Some true.

(** ** The capacity planner

    [double] values: a finite double is a real number.  The only operation
    of [optimalParameters] that leaves the finite doubles on a finite
    argument is [log], at zero (minus infinity) and below (NaN).  An infinity
    or a NaN stays one through the product with [expectedElements], the
    negation, the division by the finite non-zero [log(2) * log(2)] and
    [ceil], and converting it to [size_t] is undefined: such a value is
    [None] from [c_log] on. *)

(** [log(x)] of <cmath> *)
Definition c_log (x : R) : option R :=
  if Rlt_dec 0 x then Some (ln x) else None.

(** The least integer not below [x]. *)
Definition ceilZ (x : R) : Z := - Int_part (- x).

(** [ceil(x)] of <cmath>: a double again. *)
Definition c_ceil (x : R) : R := IZR (ceilZ x).

(** Truncation toward zero. *)
Definition truncZ (x : R) : Z :=
  if Rle_dec 0 x then Int_part x else ceilZ x.

(** A [size_t] is a value of [0, 2^64). *)
Definition to_size_t (z : Z) : option Z :=
  if (0 <=? z) && (z <? size_t_modulus) then Some z else None.

(** Conversion of a double to [size_t] (the initialisations [size_t m = ...]
    and [size_t k = ...]): the fractional part is discarded, and the
    behaviour is undefined when the truncated value is not a [size_t]. *)
Definition double_to_size_t (x : R) : option Z := to_size_t (truncZ x).

(** Conversion of a [size_t] to double (the operand of [* log(...)]). *)
Definition size_t_to_double (n : Z) : R := IZR n.

(** [a / b] on [size_t]: integer division, undefined for a zero divisor. *)
Definition size_t_div (a b : Z) : option Z :=
  if b =? 0 then None else Some (a / b).

(** [static std::pair<size_t, size_t> optimalParameters(size_t, double)]:
    [size_t m = ceil(-(expectedElements * log(falsePositiveRate))
                     / (log(2) * log(2)));]
    [size_t k = ceil((m / expectedElements) * log(2));]
    where [m / expectedElements] divides two [size_t]. *)
Definition optimalParameters (expectedElements : Z) (falsePositiveRate : R)
  : option (Z * Z) :=
  lp ← c_log falsePositiveRate;
  l2 ← c_log 2;
  m ← double_to_size_t
        (c_ceil (- (size_t_to_double expectedElements * lp) / (l2 * l2))%R);
  q ← size_t_div m expectedElements;
  k ← double_to_size_t (c_ceil (size_t_to_double q * l2)%R);
  Some (m, k).

(** The sizing formulas as the specification writes them, over the reals:
    [m = ceil(-(n * ln p) / (ln 2)^2)] and [k = ceil((m / n) * ln 2)]. *)
Definition spec_m (n : Z) (p : R) : Z :=
  ceilZ (- (IZR n * ln p) / (ln 2 * ln 2))%R.

Definition spec_k (m n : Z) : Z :=
  ceilZ (IZR m / IZR n * ln 2)%R.

(** ** The benchmark driver [analyzeConfiguration]

    [int] is the 32-bit signed integer; its overflow is undefined.  The
    fields of [AnalysisResult] are doubles: a finite real, or [NonFinite]
    for the infinity or NaN that a division by zero produces. *)

Definition int_min : Z := - 2 ^ 31.
Definition int_max : Z := 2 ^ 31 - 1.

(** [a + b] on [int] *)
Definition int_add (a b : Z) : option Z :=
  if (int_min <=? a + b) && (a + b <=? int_max) then Some (a + b) else None.

(** [std::to_string(int)]: the decimal digits, after a ['-'] for a negative
    value. *)
Definition to_string (i : Z) : string := NilZero.string_of_int (Z.to_int i).

(** ["item" + std::to_string(i)] *)
Definition item_key (i : Z) : string := String.append "item" (to_string i).

Inductive double : Type :=
| Finite (x : R)
| NonFinite.

(** [a / b] on two finite doubles *)
Definition double_div (a b : R) : double :=
  if Req_dec_T b 0 then NonFinite else Finite (a / b).

(** A finite operation applied to a double: an infinity or a NaN stays
    non-finite through [1.0 - x] and [x * 100]. *)
Definition double_map (op : R → R) (d : double) : double :=
  match d with
  | Finite x => Finite (op x)
  | NonFinite => NonFinite
  end.

Record AnalysisResult : Type := mkAnalysisResult {
  bloomMemoryKB : double;
  hashSetMemoryKB : double;
  savingsPercent : double;
  bitsPerItem : double;
  actualFPRate : double
}.

(** [const int numTests = 10000;] *)
Definition numTests : Z := 10000.

(** The loop [for (int i = 0; i < numItems; ++i)], entered at [i] with
    [count] iterations left: [bloom.insert(item); hashSet.insert(item);] *)
Fixpoint insert_items (count : nat) (i : Z) (bloom : BloomFilter)
  (hashSet : gset string) : option (BloomFilter * gset string) :=
  match count with
  | O => Some (bloom, hashSet)
  | S count' =>
      bloom' ← insert bloom (item_key i);
      i' ← int_add i 1;
      insert_items count' i' bloom' ({[item_key i]} ∪ hashSet)
  end.

(** The loop [for (int i = numItems; i < numItems + numTests; ++i)]:
    [if (bloom.mightContain(item)) falsePositives++;] *)
Fixpoint count_false_positives (count : nat) (i : Z) (bloom : BloomFilter)
  (falsePositives : Z) : option Z :=
  match count with
  | O => Some falsePositives
  | S count' =>
      hit ← mightContain bloom (item_key i);
      falsePositives' ← (if hit : bool then int_add falsePositives 1
                         else Some falsePositives);
      i' ← int_add i 1;
      count_false_positives count' i' bloom falsePositives'
  end.

Section Driver.

(** The sizes of a [std::string] and of a pointer, the two operands of
    [sizeof] in the source; the implementation of the standard library and
    the platform fix them. *)
Variables sizeof_string sizeof_pointer : Z.

(** [AnalysisResult analyzeConfiguration(int numItems, double targetFPRate)] *)
Definition analyzeConfiguration (numItems : Z) (targetFPRate : R)
  : option AnalysisResult :=
  '(bloomSize, numHashes) ← optimalParameters (wrap numItems) targetFPRate;
  '(bloom, hashSet) ← insert_items (Z.to_nat numItems) 0
                         (new_BloomFilter bloomSize numHashes) ∅;
  limit ← int_add numItems numTests;
  falsePositives ← count_false_positives (Z.to_nat (limit - numItems))
                      numItems bloom 0;
  let bloomKB := (IZR (getMemoryUsage bloom) / 1024)%R in
  let hashSetKB :=
    (IZR (wrap (Z.of_nat (size hashSet) * wrap (sizeof_string + sizeof_pointer)))
     / 1024)%R in
  Some {| bloomMemoryKB := Finite bloomKB;
          hashSetMemoryKB := Finite hashSetKB;
          savingsPercent :=
            double_map (λ q, (1 - q) * 100)%R (double_div bloomKB hashSetKB);
          bitsPerItem := double_div (IZR (getBitArraySize bloom)) (IZR numItems);
          actualFPRate := Finite (IZR falsePositives / IZR numTests * 100)%R |}.

End Driver.

(** The configurations of [printAnalysis]:
    [numItemsList = {1000, 10000, 100000}] and
    [targetFPRates = {0.01, 0.05, 0.1}]; it calls [analyzeConfiguration] on
    every pair. *)
Definition numItemsList : list Z := [1000; 10000; 100000].

Definition targetFPRates : list R := [(1 / 100)%R; (5 / 100)%R; (1 / 10)%R].

(** ** Construction and the allocator

    The member initialiser [bitArray(size, false)] allocates [size] bits and
    throws ([std::length_error], [std::bad_alloc]) when the allocator cannot
    serve that many; nothing else in the constructor can fail.  [capacity]
    is the largest number of bits the allocator serves at the time of the
    call; an empty vector needs no allocation. *)
Inductive construction : Type :=
| Constructed (f : BloomFilter)
| AllocationFailed.

Definition construct (capacity size numHashes : Z) : construction :=
  if size <=? capacity then Constructed (new_BloomFilter size numHashes)
  else AllocationFailed.

(** ** Auxiliary notions for the properties of the loops *)

(** The values taken by the loop index of [insert] and [mightContain]:
    [count] iterations from [i], each followed by [++i]. *)
Fixpoint probe_seeds (count : nat) (i : Z) : list Z :=
  match count with
  | O => []
  | S count' => i :: probe_seeds count' (wrap (i + 1))
  end.

(** Number of bits set in a bit array. *)
Fixpoint count_set_bits (bits : list bool) : nat :=
  match bits with
  | [] => O
  | b :: rest => (if b then 1 else 0)%nat + count_set_bits rest
  end.

(** ** Elementary facts on bits and sizes *)

Lemma bits_subset_refl (a : list bool) : bits_subset a a.
Proof. intros p Hp. exact Hp. Qed.

Lemma bits_subset_trans (a b c : list bool) :
  bits_subset a b → bits_subset b c → bits_subset a c.
Proof. intros Hab Hbc p Hp. apply Hbc, Hab, Hp. Qed.

Lemma bitArray_size_nonneg (f : BloomFilter) : 0 <= bitArray_size f.
Proof. unfold bitArray_size. lia. Qed.

Lemma bitArray_size_new (size numHashes : Z) :
  0 <= size → bitArray_size (new_BloomFilter size numHashes) = size.
Proof.
  intros Hsize. unfold bitArray_size, new_BloomFilter. simpl.
  rewrite length_replicate. lia.
Qed.

Lemma set_bit_Some (bits bits' : list bool) (pos : Z) :
  set_bit bits pos = Some bits' →
  0 <= pos < Z.of_nat (length bits) ∧ bits' = <[Z.to_nat pos := true]> bits.
Proof.
  unfold set_bit. intros H.
  destruct (0 <=? pos) eqn:H0; destruct (pos <? Z.of_nat (length bits)) eqn:H1;
    simpl in H; try discriminate.
  injection H as <-. split; [lia | reflexivity].
Qed.

Lemma set_bit_in_range (bits : list bool) (pos : Z) :
  0 <= pos < Z.of_nat (length bits) →
  set_bit bits pos = Some (<[Z.to_nat pos := true]> bits).
Proof.
  intros [H0 H1]. unfold set_bit.
  destruct (Z.leb_spec 0 pos); [| lia].
  destruct (Z.ltb_spec pos (Z.of_nat (length bits))); [| lia].
  reflexivity.
Qed.

Lemma insert_true_subset (bits : list bool) (n : nat) :
  bits_subset bits (<[n := true]> bits).
Proof.
  intros p Hp. destruct (decide (n = p)) as [-> | Hne].
  - apply list_lookup_insert_eq. eapply lookup_lt_Some, Hp.
  - rewrite list_lookup_insert_ne by exact Hne. exact Hp.
Qed.

(** ** The hash stays inside the bit array (used by C10, C1, C6, C7) *)

Lemma hash_in_range (f : BloomFilter) (item : string) (seed : Z) :
  1 <= bitArray_size f →
  ∃ h, hash f item seed = Some h ∧ 0 <= h < bitArray_size f.
Proof.
  intros Hm. unfold hash.
  destruct (Z.eqb_spec (bitArray_size f) 0) as [E | _]; [lia |].
  eexists. split; [reflexivity |]. apply Z.mod_pos_bound. lia.
Qed.

Lemma hash_Some_range (f : BloomFilter) (item : string) (seed h : Z) :
  hash f item seed = Some h → 0 <= h < bitArray_size f.
Proof.
  unfold hash. pose proof (bitArray_size_nonneg f) as Hnn.
  destruct (Z.eqb_spec (bitArray_size f) 0) as [E | Hne]; [discriminate |].
  intros [= <-]. apply Z.mod_pos_bound. lia.
Qed.

Lemma hash_same_size (f g : BloomFilter) (item : string) (seed : Z) :
  bitArray_size f = bitArray_size g → hash f item seed = hash g item seed.
Proof. unfold hash. intros ->. reflexivity. Qed.

(** ** What one run of the insertion loop does *)

Lemma insert_loop_total (count : nat) (item : string) :
  ∀ (i : Z) (f : BloomFilter),
    1 <= bitArray_size f → ∃ f', insert_loop count i item f = Some f'.
Proof.
  induction count as [| count IH]; intros i f Hm; simpl.
  - eauto.
  - destruct (hash_in_range f item i Hm) as (h & -> & Hh). simpl.
    rewrite set_bit_in_range by exact Hh. simpl.
    apply IH. unfold bitArray_size in *. simpl. rewrite length_insert. exact Hm.
Qed.

Lemma insert_loop_preserves (count : nat) (item : string) :
  ∀ (i : Z) (f f' : BloomFilter),
    insert_loop count i item f = Some f' →
    length (bitArray f') = length (bitArray f)
    ∧ numHashFunctions f' = numHashFunctions f
    ∧ bits_subset (bitArray f) (bitArray f').
Proof.
  induction count as [| count IH]; intros i f f' H; simpl in H.
  - injection H as <-. repeat split. apply bits_subset_refl.
  - destruct (hash f item i) as [pos |] eqn:Hh; [| discriminate]. simpl in H.
    destruct (set_bit (bitArray f) pos) as [bits |] eqn:Hs; [| discriminate].
    simpl in H. apply set_bit_Some in Hs as [_ ->].
    apply IH in H as (Hlen & Hk & Hsub). simpl in *.
    rewrite length_insert in Hlen. repeat split; [exact Hlen | exact Hk |].
    eapply bits_subset_trans; [apply insert_true_subset | exact Hsub].
Qed.

(** Every position written by the loop reads back as set, in the resulting
    filter and in any later filter that kept those bits. *)
Lemma insert_loop_covers (count : nat) (item : string) :
  ∀ (i : Z) (f f' g : BloomFilter),
    insert_loop count i item f = Some f' →
    length (bitArray g) = length (bitArray f') →
    bits_subset (bitArray f') (bitArray g) →
    mightContain_loop count i item g = Some true.
Proof.
  induction count as [| count IH]; intros i f f' g H Hlen Hsub; simpl in *.
  - reflexivity.
  - destruct (hash f item i) as [pos |] eqn:Hh; [| discriminate]. simpl in H.
    destruct (set_bit (bitArray f) pos) as [bits |] eqn:Hs; [| discriminate].
    simpl in H. apply set_bit_Some in Hs as [Hpos ->].
    pose proof (insert_loop_preserves _ _ _ _ _ H) as (Hlen' & _ & Hsub').
    simpl in Hlen', Hsub'. rewrite length_insert in Hlen'.
    rewrite (hash_same_size g f), Hh; simpl.
    2:{ unfold bitArray_size. congruence. }
    assert (Hg : bitArray g !! Z.to_nat pos = Some true).
    { apply Hsub, Hsub'. apply list_lookup_insert_eq. lia. }
    unfold get_bit. destruct (Z.leb_spec 0 pos); [| lia].
    rewrite Hg. simpl. eapply IH; eauto.
Qed.

(** When every probed bit is already set, the loop writes nothing new. *)
Lemma insert_loop_fixed (count : nat) (item : string) :
  ∀ (i : Z) (g : BloomFilter),
    mightContain_loop count i item g = Some true →
    insert_loop count i item g = Some g.
Proof.
  induction count as [| count IH]; intros i g H; simpl in *.
  - reflexivity.
  - destruct (hash g item i) as [pos |] eqn:Hh; [| discriminate]. simpl in *.
    pose proof (hash_Some_range _ _ _ _ Hh) as Hpos.
    unfold get_bit in H. destruct (Z.leb_spec 0 pos); [| lia].
    destruct (bitArray g !! Z.to_nat pos) as [b |] eqn:Hb; [| discriminate].
    simpl in H. destruct b; [| discriminate].
    rewrite set_bit_in_range by exact Hpos. simpl.
    rewrite list_insert_id by exact Hb.
    destruct g as [bits k]. simpl in *. apply IH, H.
Qed.

Lemma mightContain_loop_total (count : nat) (item : string) :
  ∀ (i : Z) (f : BloomFilter),
    1 <= bitArray_size f → ∃ b, mightContain_loop count i item f = Some b.
Proof.
  induction count as [| count IH]; intros i f Hm; simpl.
  - eauto.
  - destruct (hash_in_range f item i Hm) as (h & -> & Hh). simpl.
    unfold get_bit. destruct (Z.leb_spec 0 h); [| lia].
    destruct (lookup_lt_is_Some_2 (bitArray f) (Z.to_nat h)) as [b ->].
    { unfold bitArray_size in Hh. lia. }
    simpl. destruct b; [apply IH, Hm | eauto].
Qed.

(** ** Sequences of insertions *)

Lemma insert_preserves (f f' : BloomFilter) (item : string) :
  insert f item = Some f' →
  length (bitArray f') = length (bitArray f)
  ∧ numHashFunctions f' = numHashFunctions f
  ∧ bits_subset (bitArray f) (bitArray f').
Proof. apply insert_loop_preserves. Qed.

Lemma insert_total (f : BloomFilter) (item : string) :
  1 <= bitArray_size f → ∃ f', insert f item = Some f'.
Proof. apply insert_loop_total. Qed.

Lemma insert_all_preserves (items : list string) :
  ∀ f f' : BloomFilter,
    insert_all f items = Some f' →
    length (bitArray f') = length (bitArray f)
    ∧ numHashFunctions f' = numHashFunctions f
    ∧ bits_subset (bitArray f) (bitArray f').
Proof.
  induction items as [| item rest IH]; intros f f' H; simpl in H.
  - injection H as <-. repeat split. apply bits_subset_refl.
  - destruct (insert f item) as [f1 |] eqn:H1; [| discriminate]. simpl in H.
    apply insert_preserves in H1 as (L1 & K1 & S1).
    apply IH in H as (L2 & K2 & S2).
    repeat split; [congruence | congruence |].
    eapply bits_subset_trans; eauto.
Qed.

Lemma insert_all_total (items : list string) :
  ∀ f : BloomFilter,
    1 <= bitArray_size f → ∃ f', insert_all f items = Some f'.
Proof.
  induction items as [| item rest IH]; intros f Hm; simpl.
  - eauto.
  - destruct (insert_total f item Hm) as [f1 H1]. rewrite H1. simpl.
    apply IH. apply insert_preserves in H1 as (L1 & _ & _).
    unfold bitArray_size in *. lia.
Qed.

Lemma insert_all_app (xs ys : list string) :
  ∀ f : BloomFilter,
    insert_all f (xs ++ ys) = f' ← insert_all f xs; insert_all f' ys.
Proof.
  induction xs as [| x xs IH]; intros f; simpl.
  - reflexivity.
  - destruct (insert f x) as [f1 |]; simpl; [apply IH | reflexivity].
Qed.

(** ** Claims on the filter *)

Local Open Scope string_scope.
Local Open Scope Z_scope.

(** ** The model on concrete inputs *)

Example hash_item0_seed0 : hash (new_BloomFilter 100 3) "item0" 0 = Some 93.
Proof. reflexivity. Qed.

Example hash_item0_seed1 : hash (new_BloomFilter 100 3) "item0" 1 = Some 45.
Proof. reflexivity. Qed.

Example char_above_127_sign_extends :
  char_to_size_t "255"%char = size_t_modulus - 1.
Proof. reflexivity. Qed.

Example insert_ab_sets_three_bits :
  insert (new_BloomFilter 10 3) "ab"
  = Some {| bitArray := [true; true; false; false; false;
                         false; false; false; true; false];
            numHashFunctions := 3 |}.
Proof. reflexivity. Qed.

Example mightContain_before_insert :
  mightContain (new_BloomFilter 10 3) "ab" = Some false.
Proof. reflexivity. Qed.

(** C10. In-bounds access: on a filter whose bit array has length at least 1,
    [hash] returns an index strictly below that length for every string and
    every seed; hence no access of [insert] or [mightContain] leaves the bit
    array, and both return a defined result. *)
Theorem hash_within_bit_array (f : BloomFilter) (item : string) (seed : Z) :
  1 <= bitArray_size f →
  (∃ h, hash f item seed = Some h ∧ 0 <= h < bitArray_size f)
  ∧ (∃ f', insert f item = Some f')
  ∧ (∃ b, mightContain f item = Some b).
Proof.
  intros Hm. split; [| split].
  - apply hash_in_range, Hm.
  - apply insert_total, Hm.
  - apply mightContain_loop_total, Hm.
Qed.

Lemma hash_within_bit_array_witness :
  1 <= bitArray_size (new_BloomFilter 10 3)
  ∧ (∃ h, hash (new_BloomFilter 10 3) "ab" 2 = Some h
          ∧ 0 <= h < bitArray_size (new_BloomFilter 10 3))
  ∧ (∃ f', insert (new_BloomFilter 10 3) "ab" = Some f')
  ∧ (∃ b, mightContain (new_BloomFilter 10 3) "ab" = Some b).
Proof.
  split; [vm_compute; discriminate |].
  apply (hash_within_bit_array (new_BloomFilter 10 3) "ab" 2).
  vm_compute; discriminate.
Defined.

(** C1. No false negatives: on a filter built with [m >= 1] and [k >= 1],
    whatever strings were inserted before [s] and whatever strings are
    inserted after it, [mightContain s] answers true right after the insertion
    of [s] and still answers true after all the later insertions. *)
Theorem no_false_negatives (m k : Z) (before after : list string) (s : string) :
  1 <= m → 1 <= k →
  ∃ f1 f2,
    insert_all (new_BloomFilter m k) (before ++ [s]) = Some f1
    ∧ mightContain f1 s = Some true
    ∧ insert_all f1 after = Some f2
    ∧ mightContain f2 s = Some true.
Proof.
  intros Hm _.
  assert (Hnew : 1 <= bitArray_size (new_BloomFilter m k)).
  { rewrite bitArray_size_new; lia. }
  destruct (insert_all_total before _ Hnew) as [f0 H0].
  pose proof (insert_all_preserves _ _ _ H0) as (L0 & _ & _).
  assert (Hf0 : 1 <= bitArray_size f0) by (unfold bitArray_size in *; lia).
  destruct (insert_total f0 s Hf0) as [f1 H1].
  pose proof (insert_preserves _ _ _ H1) as (L1 & K1 & _).
  assert (Hf1 : 1 <= bitArray_size f1) by (unfold bitArray_size in *; lia).
  destruct (insert_all_total after _ Hf1) as [f2 H2].
  pose proof (insert_all_preserves _ _ _ H2) as (L2 & K2 & S2).
  exists f1, f2. repeat split.
  - rewrite insert_all_app, H0. simpl. rewrite H1. reflexivity.
  - unfold mightContain. rewrite K1.
    eapply insert_loop_covers; [exact H1 | reflexivity | apply bits_subset_refl].
  - exact H2.
  - unfold mightContain. rewrite K2, K1.
    eapply insert_loop_covers; [exact H1 | exact L2 | exact S2].
Qed.

Lemma no_false_negatives_witness :
  1 <= 10 ∧ 1 <= 3
  ∧ ∃ f1 f2,
      insert_all (new_BloomFilter 10 3) (["item0"; "item1"] ++ ["ab"]) = Some f1
      ∧ mightContain f1 "ab" = Some true
      ∧ insert_all f1 ["item2"; "cd"] = Some f2
      ∧ mightContain f2 "ab" = Some true.
Proof.
  split; [lia |]. split; [lia |].
  apply (no_false_negatives 10 3 ["item0"; "item1"] ["item2"; "cd"] "ab"); lia.
Defined.

(** C6. Idempotence of insertion: from every filter state on which
    [insert s] is defined (it is on every non-empty bit array), a second
    [insert s] leaves the filter exactly as the first one left it. *)
Theorem insert_idempotent (f : BloomFilter) (s : string) :
  (1 <= bitArray_size f → ∃ f1, insert f s = Some f1)
  ∧ (∀ f1, insert f s = Some f1 → insert f1 s = Some f1).
Proof.
  split; [apply insert_total |].
  intros f1 H1. pose proof (insert_preserves _ _ _ H1) as (_ & K1 & _).
  unfold insert. rewrite K1. apply insert_loop_fixed.
  eapply insert_loop_covers; [exact H1 | reflexivity | apply bits_subset_refl].
Qed.

Lemma insert_idempotent_witness :
  ∃ f1, insert (new_BloomFilter 10 3) "ab" = Some f1 ∧ insert f1 "ab" = Some f1.
Proof.
  destruct (insert_idempotent (new_BloomFilter 10 3) "ab") as [Htotal Hfix].
  destruct Htotal as [f1 H1]; [vm_compute; discriminate |].
  exists f1. split; [exact H1 | exact (Hfix f1 H1)].
Defined.

(** C7. Monotonic growth: along every sequence of [insert] calls, the length
    of the bit array stays what it was at construction and every bit that
    was true before a call is still true after it; on a non-empty bit array
    every such sequence runs to its end. *)
Theorem bits_never_cleared (f : BloomFilter) (items : list string) :
  (1 <= bitArray_size f → ∃ f', insert_all f items = Some f')
  ∧ (∀ f', insert_all f items = Some f' →
           getBitArraySize f' = getBitArraySize f
           ∧ bits_subset (bitArray f) (bitArray f')).
Proof.
  split; [apply insert_all_total |].
  intros f' H. apply insert_all_preserves in H as (L & _ & Hsub).
  split; [| exact Hsub]. unfold getBitArraySize, bitArray_size. lia.
Qed.

Lemma bits_never_cleared_witness :
  ∃ f', insert_all (new_BloomFilter 10 3) ["ab"; "cd"] = Some f'
        ∧ getBitArraySize f' = getBitArraySize (new_BloomFilter 10 3)
        ∧ bits_subset (bitArray (new_BloomFilter 10 3)) (bitArray f').
Proof.
  destruct (bits_never_cleared (new_BloomFilter 10 3) ["ab"; "cd"])
    as [Htotal Hkeep].
  destruct Htotal as [f' H]; [vm_compute; discriminate |].
  exists f'. split; [exact H | exact (Hkeep f' H)].
Defined.

(** C5. Memory accounting: for a filter built with [1 <= m < 2^64] bits,
    [getMemoryUsage] is the ceiling of [m / 8], that is [(m + 7) / 8], the
    least number of bytes holding [m] bits; [m = 1] and [m = 8] report 1 and
    [m = 9] reports 2. *)
Theorem getMemoryUsage_rounds_up :
  (∀ m k : Z,
     1 <= m < size_t_modulus →
     getMemoryUsage (new_BloomFilter m k) = (m + 7) / 8
     ∧ 8 * (getMemoryUsage (new_BloomFilter m k) - 1) < m
         <= 8 * getMemoryUsage (new_BloomFilter m k))
  ∧ (∀ k : Z,
       getMemoryUsage (new_BloomFilter 1 k) = 1
       ∧ getMemoryUsage (new_BloomFilter 8 k) = 1
       ∧ getMemoryUsage (new_BloomFilter 9 k) = 2).
Proof.
  split.
  - intros m k Hm. unfold getMemoryUsage.
    rewrite bitArray_size_new by lia. unfold wrap, size_t_modulus in *.
    assert (E : m / 8 + (if m mod 8 =? 0 then 0 else 1) = (m + 7) / 8).
    { pose proof (Z.div_mod m 8 ltac:(lia)) as Hdm.
      pose proof (Z.mod_pos_bound m 8 ltac:(lia)) as Hr.
      destruct (Z.eqb_spec (m mod 8) 0) as [E0 | Hne].
      - apply Z.div_unique with (r := 7); lia.
      - apply Z.div_unique with (r := m mod 8 - 1); lia. }
    rewrite E.
    pose proof (Z.div_mod (m + 7) 8 ltac:(lia)) as Hdm.
    pose proof (Z.mod_pos_bound (m + 7) 8 ltac:(lia)) as Hr.
    rewrite Z.mod_small by lia. lia.
  - intros k. repeat split; reflexivity.
Qed.

Lemma getMemoryUsage_rounds_up_witness :
  1 <= 1000 < size_t_modulus
  ∧ getMemoryUsage (new_BloomFilter 1000 7) = (1000 + 7) / 8
  ∧ 8 * (getMemoryUsage (new_BloomFilter 1000 7) - 1) < 1000
      <= 8 * getMemoryUsage (new_BloomFilter 1000 7).
Proof.
  split; [unfold size_t_modulus; lia |].
  apply (proj1 getMemoryUsage_rounds_up 1000 7). unfold size_t_modulus. lia.
Defined.

(** C4, as the spec states it, fails: the constructor has no validation of
    its arguments.  With a zero size or a zero hash count it builds a
    filter all the same: an empty bit array on which [insert] is undefined,
    or a filter without hash slots that answers true for a string that was
    never inserted. *)
Lemma constructor_accepts_zero :
  new_BloomFilter 0 3 = {| bitArray := []; numHashFunctions := 3 |}
  ∧ new_BloomFilter 5 0
    = {| bitArray := [false; false; false; false; false]; numHashFunctions := 0 |}
  ∧ getBitArraySize (new_BloomFilter 0 3) = 0
  ∧ insert (new_BloomFilter 0 3) "x" = None
  ∧ mightContain (new_BloomFilter 5 0) "never inserted" = Some true.
Proof. repeat split; reflexivity. Qed.

(** What the constructor builds when the allocation succeeded. *)
Lemma new_BloomFilter_shape (size numHashes : Z) :
  0 <= size →
  getBitArraySize (new_BloomFilter size numHashes) = size
  ∧ numHashFunctions (new_BloomFilter size numHashes) = numHashes
  ∧ (∀ (p : nat) (b : bool),
       bitArray (new_BloomFilter size numHashes) !! p = Some b → b = false)
  ∧ (numHashes = 0 →
     ∀ s, insert (new_BloomFilter size numHashes) s
          = Some (new_BloomFilter size numHashes)
          ∧ mightContain (new_BloomFilter size numHashes) s = Some true)
  ∧ (size = 0 → 1 <= numHashes →
     ∀ s, insert (new_BloomFilter size numHashes) s = None
          ∧ mightContain (new_BloomFilter size numHashes) s = None).
Proof.
  intros Hsize. repeat split.
  - apply bitArray_size_new, Hsize.
  - intros p b Hp. simpl in Hp. apply lookup_replicate in Hp as [-> _]. reflexivity.
  - subst numHashes. reflexivity.
  - subst numHashes. reflexivity.
  - subst size. unfold insert. simpl.
    destruct (Z.to_nat numHashes) as [| n] eqn:E; [lia | reflexivity].
  - subst size. unfold mightContain. simpl.
    destruct (Z.to_nat numHashes) as [| n] eqn:E; [lia | reflexivity].
Qed.

(** C4, amended. The constructor does not validate its arguments: a call
    with [size = 0] or [numHashes = 0] is not rejected for being zero.  It
    produces a filter whenever the allocation of [size] bits succeeds, which
    it always does for [size = 0]: [size] bits, all false, and the given
    hash count.  With [numHashes = 0] that filter is inert: [insert] changes
    nothing and [mightContain] answers true for every string.  With
    [size = 0] and [numHashes >= 1] every [insert] and [mightContain] on it
    is undefined (modulo by zero in [hash]).  The one failure of the
    constructor is that of the allocation, for a size beyond what the
    allocator serves. *)
Theorem constructor_does_not_validate (capacity size numHashes : Z) :
  0 <= capacity → 0 <= size →
  size = 0 ∨ numHashes = 0 →
  (size = 0 → construct capacity size numHashes
              = Constructed (new_BloomFilter 0 numHashes))
  ∧ (size <= capacity →
     ∃ f, construct capacity size numHashes = Constructed f
          ∧ getBitArraySize f = size
          ∧ numHashFunctions f = numHashes
          ∧ (∀ (p : nat) (b : bool), bitArray f !! p = Some b → b = false)
          ∧ (numHashes = 0 →
             ∀ s, insert f s = Some f ∧ mightContain f s = Some true)
          ∧ (size = 0 → 1 <= numHashes →
             ∀ s, insert f s = None ∧ mightContain f s = None))
  ∧ (capacity < size →
     construct capacity size numHashes = AllocationFailed).
Proof.
  intros Hcap Hsize _. unfold construct. split; [| split].
  - intros ->. destruct (Z.leb_spec 0 capacity); [reflexivity | lia].
  - intros Hfits. destruct (Z.leb_spec size capacity); [| lia].
    exists (new_BloomFilter size numHashes). split; [reflexivity |].
    apply new_BloomFilter_shape, Hsize.
  - intros Hbig. destruct (Z.leb_spec size capacity); [lia | reflexivity].
Qed.

Lemma constructor_does_not_validate_witness :
  (0 <= 1000 ∧ 0 <= 5 ∧ (5 = 0 ∨ 0 = 0))
  ∧ ∃ f, construct 1000 5 0 = Constructed f
         ∧ getBitArraySize f = 5
         ∧ numHashFunctions f = 0
         ∧ (∀ s, insert f s = Some f ∧ mightContain f s = Some true).
Proof.
  split; [split; [lia | split; [lia | right; reflexivity]] |].
  destruct (constructor_does_not_validate 1000 5 0)
    as (_ & Hfits & _); [lia | lia | right; reflexivity |].
  destruct (Hfits ltac:(lia)) as (f & Hf & Hs & Hk & _ & Hinert & _).
  exists f. split; [exact Hf |]. split; [exact Hs |]. split; [exact Hk |].
  exact (Hinert eq_refl).
Defined.

(** ** Rounding and conversions *)

Lemma ceilZ_spec (x : R) : (IZR (ceilZ x) - 1 < x <= IZR (ceilZ x))%R.
Proof.
  unfold ceilZ. rewrite opp_IZR.
  destruct (base_Int_part (- x)) as [Hle Hgt]. lra.
Qed.

Lemma ceilZ_unique (x : R) (z : Z) :
  (IZR z - 1 < x <= IZR z)%R → ceilZ x = z.
Proof.
  intros [Hlo Hhi]. unfold ceilZ.
  rewrite <- (Int_part_spec (- x) (- z)); [lia |].
  rewrite opp_IZR. lra.
Qed.

Lemma ceilZ_IZR (z : Z) : ceilZ (IZR z) = z.
Proof. apply ceilZ_unique. lra. Qed.

Lemma ceilZ_mono (x y : R) : (x <= y)%R → ceilZ x <= ceilZ y.
Proof.
  intros Hxy. pose proof (ceilZ_spec x) as Hx. pose proof (ceilZ_spec y) as Hy.
  apply Z.lt_succ_r. apply lt_IZR. rewrite succ_IZR. lra.
Qed.

Lemma truncZ_IZR (z : Z) : truncZ (IZR z) = z.
Proof.
  unfold truncZ. destruct (Rle_dec 0 (IZR z)) as [_ | _].
  - symmetry. apply Int_part_spec. lra.
  - apply ceilZ_IZR.
Qed.

Lemma double_to_size_t_ceil (x : R) :
  double_to_size_t (c_ceil x) = to_size_t (ceilZ x).
Proof. unfold double_to_size_t, c_ceil. rewrite truncZ_IZR. reflexivity. Qed.

Lemma to_size_t_in_range (z : Z) :
  0 <= z < size_t_modulus → to_size_t z = Some z.
Proof.
  intros [H0 H1]. unfold to_size_t.
  destruct (Z.leb_spec 0 z); [| lia]. destruct (Z.ltb_spec z size_t_modulus); [| lia].
  reflexivity.
Qed.

Lemma to_size_t_Some (z m : Z) :
  to_size_t z = Some m → m = z ∧ 0 <= z < size_t_modulus.
Proof.
  unfold to_size_t.
  destruct (Z.leb_spec 0 z); destruct (Z.ltb_spec z size_t_modulus);
    simpl; intros [=]; subst; lia.
Qed.

Lemma to_size_t_negative (z : Z) : z < 0 → to_size_t z = None.
Proof. intros H. unfold to_size_t. destruct (Z.leb_spec 0 z); [lia | reflexivity]. Qed.

Lemma c_log_pos (x : R) : (0 < x)%R → c_log x = Some (ln x).
Proof. intros H. unfold c_log. destruct (Rlt_dec 0 x); [reflexivity | contradiction]. Qed.

Lemma c_log_nonpos (x : R) : (x <= 0)%R → c_log x = None.
Proof. intros H. unfold c_log. destruct (Rlt_dec 0 x); [lra | reflexivity]. Qed.

(** [optimalParameters] on a positive rate, with the double conversions
    resolved. *)
Lemma optimalParameters_pos (n : Z) (p : R) :
  (0 < p)%R →
  optimalParameters n p =
    m ← to_size_t (ceilZ (- (IZR n * ln p) / (ln 2 * ln 2))%R);
    q ← size_t_div m n;
    k ← to_size_t (ceilZ (IZR q * ln 2)%R);
    Some (m, k).
Proof.
  intros Hp. unfold optimalParameters.
  rewrite (c_log_pos p Hp), (c_log_pos 2) by lra. simpl.
  rewrite double_to_size_t_ceil. unfold size_t_to_double.
  destruct (to_size_t _) as [m |]; simpl; [| reflexivity].
  destruct (size_t_div m n) as [q |]; simpl; [| reflexivity].
  rewrite double_to_size_t_ceil. reflexivity.
Qed.

(** ** Bounds on the logarithms *)

Lemma ln_le_minus_1 (x : R) : (0 < x)%R → (ln x <= x - 1)%R.
Proof.
  intros Hx. pose proof (exp_ineq1_le (ln x)) as H.
  rewrite exp_ln in H by exact Hx. lra.
Qed.

Lemma exp_lower_step (x y r s : R) :
  (0 <= r)%R → (r <= exp x)%R → (y = 2 * x)%R → (s <= r * r)%R → (s <= exp y)%R.
Proof.
  intros Hr Hx -> Hs.
  replace (2 * x)%R with (x + x)%R by ring. rewrite exp_plus.
  apply Rle_trans with (r * r)%R; [exact Hs |].
  apply Rmult_le_compat; assumption.
Qed.

(** One squaring step: from [r <= exp x], the bound [s <= exp (2 x)] for a
    rational [s <= r * r]. *)
Ltac exp_square H x r :=
  apply (exp_lower_step x _ r); [lra | exact H | lra | lra].

Lemma ln_2_upper : (ln 2 < 7 / 10)%R.
Proof.
  apply exp_lt_inv. rewrite exp_ln by lra.
  assert (H0 : (647 / 640 <= exp (7 / 640))%R).
  { pose proof (exp_ineq1_le (7 / 640)). lra. }
  assert (H1 : (510997 / 500000 <= exp (7 / 320))%R).
  { exp_square H0 (7 / 640)%R (647 / 640)%R. }
  assert (H2 : (1044471 / 1000000 <= exp (7 / 160))%R).
  { exp_square H1 (7 / 320)%R (510997 / 500000)%R. }
  assert (H3 : (1090919 / 1000000 <= exp (7 / 80))%R).
  { exp_square H2 (7 / 160)%R (1044471 / 1000000)%R. }
  assert (H4 : (148763 / 125000 <= exp (7 / 40))%R).
  { exp_square H3 (7 / 80)%R (1090919 / 1000000)%R. }
  assert (H5 : (1416347 / 1000000 <= exp (7 / 20))%R).
  { exp_square H4 (7 / 40)%R (148763 / 125000)%R. }
  assert (H6 : (1003019 / 500000 <= exp (7 / 10))%R).
  { exp_square H5 (7 / 20)%R (1416347 / 1000000)%R. }
  lra.
Qed.

Lemma ln_2_lower : (3 / 5 < ln 2)%R.
Proof.
  apply exp_lt_inv. rewrite exp_ln by lra.
  assert (H0 : (17 / 20 <= exp (- (3 / 20)))%R).
  { pose proof (exp_ineq1_le (- (3 / 20))). lra. }
  assert (H1 : (289 / 400 <= exp (- (3 / 10)))%R).
  { exp_square H0 (- (3 / 20))%R (17 / 20)%R. }
  assert (H2 : (261003 / 500000 <= exp (- (3 / 5)))%R).
  { exp_square H1 (- (3 / 10))%R (289 / 400)%R. }
  rewrite exp_Ropp in H2.
  pose proof (exp_pos (3 / 5)) as Hpos.
  assert (Hinv : (/ exp (3 / 5) * exp (3 / 5) = 1)%R) by (apply Rinv_l; lra).
  nra.
Qed.

(** ** The planner on valid and invalid input *)



Lemma optimalParameters_from_m (n : Z) (p : R) (m : Z) :
  1 <= n → (0 < p)%R →
  to_size_t (ceilZ (- (IZR n * ln p) / (ln 2 * ln 2))%R) = Some m →
  optimalParameters n p = Some (m, ceilZ (IZR (m / n) * ln 2)%R)
  ∧ 0 <= ceilZ (IZR (m / n) * ln 2)%R <= m / n.
Proof.
  intros Hn Hp Hm. rewrite optimalParameters_pos by exact Hp. rewrite Hm. simpl.
  apply to_size_t_Some in Hm as [Em Hr]. rewrite <- Em in Hr. clear Em.
  unfold size_t_div. destruct (Z.eqb_spec n 0) as [E | _]; [lia |]. simpl.
  assert (Hq : 0 <= m / n <= m).
  { split.
    - apply Z.div_pos; lia.
    - apply Z.div_le_upper_bound; nia. }
  assert (Hk : 0 <= ceilZ (IZR (m / n) * ln 2)%R <= m / n).
  { pose proof ln_2_lower as Hlo. pose proof ln_2_upper as Hhi.
    pose proof (IZR_le _ _ (proj1 Hq)) as Hq'. split.
    - rewrite <- (ceilZ_IZR 0). apply ceilZ_mono. nra.
    - rewrite <- (ceilZ_IZR (m / n)) at 2. apply ceilZ_mono. nra. }
  rewrite to_size_t_in_range; [split; [reflexivity | exact Hk] |].
  lia.
Qed.

Lemma ideal_m_100_099 :
  (2 < - (IZR 100 * ln (99 / 100)) / (ln 2 * ln 2) <= 3)%R.
Proof.
  pose proof ln_2_lower as Hlo. pose proof ln_2_upper as Hhi.
  assert (Hup : (ln (99 / 100) <= - (1 / 100))%R).
  { pose proof (ln_le_minus_1 (99 / 100) ltac:(lra)). lra. }
  assert (Hdown : (- (1 / 99) <= ln (99 / 100))%R).
  { pose proof (ln_le_minus_1 (/ (99 / 100)) ltac:(lra)) as H.
    rewrite ln_Rinv in H by lra. lra. }
  set (N := (- (IZR 100 * ln (99 / 100)))%R).
  set (D := (ln 2 * ln 2)%R).
  assert (HD : (9 / 25 < D < 49 / 100)%R) by (unfold D; nra).
  assert (HN : (1 <= N <= 100 / 99)%R) by (unfold N; lra).
  assert (E : (N / D * D = N)%R) by (field; lra).
  split; nra.
Qed.

Lemma optimalParameters_100_099 : optimalParameters 100 (99 / 100) = Some (3, 0).
Proof.
  assert (Hm : to_size_t (ceilZ (- (IZR 100 * ln (99 / 100)) / (ln 2 * ln 2))%R)
               = Some 3).
  { rewrite (ceilZ_unique _ 3); [reflexivity |].
    pose proof ideal_m_100_099. lra. }
  destruct (optimalParameters_from_m 100 (99 / 100) 3 ltac:(lia) ltac:(lra) Hm)
    as [-> Hk].
  change (3 / 100) with 0 in *. f_equal. f_equal. lia.
Qed.

Lemma optimalParameters_returns_m (n : Z) (p : R) (m k : Z) :
  (0 < p)%R → optimalParameters n p = Some (m, k) →
  m = ceilZ (- (IZR n * ln p) / (ln 2 * ln 2))%R ∧ 0 <= m < size_t_modulus.
Proof.
  intros Hp H. rewrite optimalParameters_pos in H by exact Hp.
  destruct (to_size_t _) as [m' |] eqn:Hm; simpl in H; [| discriminate].
  destruct (size_t_div m' n) as [q |]; simpl in H; [| discriminate].
  destruct (to_size_t (ceilZ (IZR q * ln 2)%R)) as [k' |]; simpl in H;
    [| discriminate].
  injection H as -> ->. apply to_size_t_Some in Hm as [-> Hr]. split; [reflexivity | exact Hr].
Qed.

Lemma optimalParameters_m_zero (n : Z) (p : R) :
  1 <= n → (0 < p)%R →
  ceilZ (- (IZR n * ln p) / (ln 2 * ln 2))%R = 0 →
  optimalParameters n p = Some (0, 0).
Proof.
  intros Hn Hp E.
  destruct (optimalParameters_from_m n p 0 Hn Hp) as [-> Hk].
  { rewrite E. reflexivity. }
  rewrite Z.div_0_l in * by lia. f_equal. f_equal. lia.
Qed.

(** What the code computes on valid input: [m] is the specified ceiling,
    and [k] is the ceiling of the integer quotient [m / n] times [ln 2]. *)
Lemma optimalParameters_formula (n : Z) (p : R) (m k : Z) :
  1 <= n → (0 < p < 1)%R →
  optimalParameters n p = Some (m, k) →
  m = spec_m n p ∧ k = ceilZ (IZR (m / n) * ln 2)%R.
Proof.
  intros Hn Hp H.
  pose proof (optimalParameters_returns_m n p m k ltac:(lra) H) as [Em Hr].
  split; [exact Em |].
  destruct (optimalParameters_from_m n p m Hn ltac:(lra)) as [H' _].
  { rewrite <- Em. apply to_size_t_in_range, Hr. }
  congruence.
Qed.

(** C9. On the valid planner input [n = 100], [p = 0.99] the computed [m] is
    below [n], the integer quotient [m / n] is 0, and [optimalParameters]
    returns [k = 0]: a filter built from that pair has no hash slot and
    answers true for every string. *)
Theorem optimalParameters_zero_hash_count :
  (1 <= 100 ∧ (0 < 99 / 100 < 1)%R)
  ∧ ∃ m k, optimalParameters 100 (99 / 100) = Some (m, k)
           ∧ 1 <= m < 100 ∧ m / 100 = 0 ∧ k = 0
           ∧ ∀ s, mightContain (new_BloomFilter m k) s = Some true.
Proof.
  split; [split; [lia | lra] |].
  exists 3, 0. rewrite optimalParameters_100_099.
  split; [reflexivity |]. split; [lia |]. split; [reflexivity |].
  split; [reflexivity |]. intros s. reflexivity.
Qed.

(** C2, on the code. The planner divides [m] by [expectedElements] as two
    [size_t], so the fraction of [m / n] is lost before the product with
    [log(2)].  At [n = 100], [p = 0.99] the code returns [m = 3], which is
    the specified [ceil(-(n ln p) / (ln 2)^2)], and [k = 0], where the
    specified [ceil((m / n) * ln 2)] is 1. *)
Theorem optimalParameters_k_loses_fraction :
  optimalParameters 100 (99 / 100) = Some (3, 0)
  ∧ spec_m 100 (99 / 100) = 3
  ∧ spec_k 3 100 = 1.
Proof.
  split; [apply optimalParameters_100_099 |]. split.
  - apply ceilZ_unique. pose proof ideal_m_100_099. lra.
  - apply ceilZ_unique.
    pose proof ln_2_lower as Hlo. pose proof ln_2_upper as Hhi. lra.
Qed.

(** C3, as the spec states it, fails: [optimalParameters(100, 1.0)] does not
    fail, it returns the degenerate pair [(0, 0)]. *)
Lemma optimalParameters_100_1_returns : optimalParameters 100 1 = Some (0, 0).
Proof.
  apply optimalParameters_m_zero; [lia | lra |].
  rewrite ln_1. apply ceilZ_unique.
  unfold Rdiv. rewrite Rmult_0_r, Ropp_0, Rmult_0_l. lra.
Qed.

(** C3, amended. [optimalParameters] validates nothing and reports no
    invalid-argument condition.  With [n = 0] (whatever [p]) and with
    [p <= 0] (whatever [n]) the call has no defined result: an integer
    division by zero, respectively the conversion of an infinite or NaN
    double to [size_t].  With [n >= 1] and [p >= 1] the call returns the
    degenerate pair [(0, 0)], always so at [p = 1.0], or is undefined (the
    conversion of a negative double). *)
Theorem optimalParameters_does_not_validate :
  (∀ p : R, optimalParameters 0 p = None)
  ∧ (∀ (n : Z) (p : R), (p <= 0)%R → optimalParameters n p = None)
  ∧ (∀ n : Z, 1 <= n → optimalParameters n 1 = Some (0, 0))
  ∧ (∀ (n : Z) (p : R), 1 <= n → (1 <= p)%R →
       optimalParameters n p = Some (0, 0) ∨ optimalParameters n p = None).
Proof.
  assert (Hge1 : ∀ (n : Z) (p : R), 1 <= n → (1 <= p)%R →
            ceilZ (- (IZR n * ln p) / (ln 2 * ln 2))%R <= 0
            ∧ (ceilZ (- (IZR n * ln p) / (ln 2 * ln 2))%R = 0 →
               optimalParameters n p = Some (0, 0))
            ∧ (ceilZ (- (IZR n * ln p) / (ln 2 * ln 2))%R < 0 →
               optimalParameters n p = None)).
  { intros n p Hn Hp. rewrite optimalParameters_pos by lra. split; [| split].
    - rewrite <- (ceilZ_IZR 0). apply ceilZ_mono.
      pose proof ln_2_lower as Hlo. pose proof (IZR_le _ _ Hn) as Hn'.
      assert (Hln : (0 <= ln p)%R).
      { destruct (Rle_lt_or_eq_dec _ _ Hp) as [Hlt | <-]; [| rewrite ln_1; lra].
        rewrite <- ln_1. left. apply ln_increasing; lra. }
      assert (Hinv : (0 < / (ln 2 * ln 2))%R) by (apply Rinv_0_lt_compat; nra).
      assert (Hprod : (0 <= IZR n * ln p)%R) by nra.
      unfold Rdiv. nra.
    - intros E. rewrite <- optimalParameters_pos by lra.
      apply optimalParameters_m_zero; [exact Hn | lra | exact E].
    - intros Hneg. rewrite to_size_t_negative by exact Hneg. reflexivity. }
  split; [| split; [| split]].
  - intros p. destruct (Rlt_dec 0 p) as [Hp | Hp].
    + rewrite optimalParameters_pos by exact Hp.
      rewrite (ceilZ_unique _ 0); [reflexivity |].
      unfold Rdiv. rewrite Rmult_0_l, Ropp_0, Rmult_0_l. lra.
    + apply Rnot_lt_le in Hp. unfold optimalParameters.
      rewrite (c_log_nonpos p) by exact Hp. reflexivity.
  - intros n p Hp. unfold optimalParameters.
    rewrite (c_log_nonpos p) by exact Hp. reflexivity.
  - intros n Hn. destruct (Hge1 n 1%R Hn ltac:(lra)) as (_ & H0 & _).
    apply H0. rewrite ln_1. apply ceilZ_unique.
    unfold Rdiv. rewrite Rmult_0_r, Ropp_0, Rmult_0_l. lra.
  - intros n p Hn Hp. destruct (Hge1 n p Hn Hp) as (Hle & H0 & Hneg).
    destruct (Z.eq_dec (ceilZ (- (IZR n * ln p) / (ln 2 * ln 2))%R) 0) as [E | E].
    + left. apply H0, E.
    + right. apply Hneg. lia.
Qed.

Lemma optimalParameters_does_not_validate_witness :
  optimalParameters 0 (1 / 100) = None
  ∧ optimalParameters 100 0 = None
  ∧ optimalParameters 100 1 = Some (0, 0)
  ∧ (optimalParameters 100 2 = Some (0, 0) ∨ optimalParameters 100 2 = None).
Proof.
  destruct optimalParameters_does_not_validate as (Hn0 & Hp0 & Hp1 & Hpge).
  split; [apply Hn0 |]. split; [apply Hp0; lra |].
  split; [apply Hp1; lia |]. apply Hpge; [lia | lra].
Defined.


(** ** Further properties of the filter *)

(** *** The probing loops, seed by seed *)

Lemma wrap_small (z : Z) : 0 <= z < size_t_modulus → wrap z = z.
Proof. intros H. unfold wrap. apply Z.mod_small, H. Qed.

Lemma probe_seeds_no_wrap (count : nat) :
  ∀ i j : Z,
    0 <= i → i + Z.of_nat count <= size_t_modulus →
    j ∈ probe_seeds count i ↔ i <= j < i + Z.of_nat count.
Proof.
  induction count as [| count IH]; intros i j Hi Hbound; simpl.
  - rewrite elem_of_nil. lia.
  - rewrite elem_of_cons. destruct count as [| count'].
    + simpl. rewrite elem_of_nil. lia.
    + rewrite wrap_small by lia. rewrite IH by lia. lia.
Qed.

Lemma insert_seeds (k j : Z) :
  k <= size_t_modulus → j ∈ probe_seeds (Z.to_nat k) 0 ↔ 0 <= j < k.
Proof.
  intros Hk. unfold size_t_modulus in Hk.
  rewrite probe_seeds_no_wrap by (unfold size_t_modulus; lia). lia.
Qed.

Lemma lookup_insert_true (bits : list bool) (n p : nat) :
  (n < length bits)%nat →
  <[n := true]> bits !! p = Some true ↔ p = n ∨ bits !! p = Some true.
Proof.
  intros Hn. destruct (decide (n = p)) as [-> | Hne].
  - rewrite list_lookup_insert_eq by exact Hn. tauto.
  - rewrite list_lookup_insert_ne by exact Hne. split; [tauto |].
    intros [-> | H]; [contradiction | exact H].
Qed.

(** The bits set after the loop: those set before, and the position probed
    at each seed. *)
Lemma insert_loop_bits (count : nat) (item : string) :
  ∀ (i : Z) (f f' : BloomFilter),
    insert_loop count i item f = Some f' →
    ∀ p : nat,
      bitArray f' !! p = Some true
      ↔ bitArray f !! p = Some true
        ∨ ∃ j, j ∈ probe_seeds count i ∧ hash f item j = Some (Z.of_nat p).
Proof.
  induction count as [| count IH]; intros i f f' H p; simpl in H.
  - injection H as <-. simpl. split; [tauto |].
    intros [Hp | (j & Hj & _)]; [exact Hp |]. apply elem_of_nil in Hj as [].
  - destruct (hash f item i) as [pos |] eqn:Hh; [| discriminate]. simpl in H.
    destruct (set_bit (bitArray f) pos) as [bits |] eqn:Hs; [| discriminate].
    simpl in H. apply set_bit_Some in Hs as [Hpos ->].
    rewrite (IH _ _ _ H p). simpl.
    rewrite lookup_insert_true by lia.
    assert (Hsame : ∀ j, hash {| bitArray := <[Z.to_nat pos := true]> (bitArray f);
                                 numHashFunctions := numHashFunctions f |} item j
                         = hash f item j).
    { intros j. apply hash_same_size. unfold bitArray_size. simpl.
      rewrite length_insert. reflexivity. }
    split.
    + intros [[-> | Hp] | (j & Hj & Hhj)].
      * right. exists i. split; [apply list_elem_of_here |].
        rewrite Hh. f_equal. lia.
      * left. exact Hp.
      * right. exists j. rewrite Hsame in Hhj.
        split; [apply list_elem_of_further, Hj | exact Hhj].
    + intros [Hp | (j & Hj & Hhj)].
      * left. right. exact Hp.
      * apply elem_of_cons in Hj as [-> | Hj].
        -- left. left. rewrite Hh in Hhj. injection Hhj as ->. lia.
        -- right. exists j. rewrite Hsame. split; assumption.
Qed.

(** The loop of [mightContain] answers true exactly when the position probed
    at every seed is set. *)
Lemma mightContain_loop_true_iff (count : nat) (item : string) (f : BloomFilter) :
  ∀ i : Z,
    mightContain_loop count i item f = Some true
    ↔ ∀ j, j ∈ probe_seeds count i →
           ∃ pos, hash f item j = Some pos
                  ∧ bitArray f !! Z.to_nat pos = Some true.
Proof.
  induction count as [| count IH]; intros i; simpl.
  - split; [| reflexivity]. intros _ j Hj. apply elem_of_nil in Hj as [].
  - split.
    + intros H j Hj.
      destruct (hash f item i) as [pos |] eqn:Hh; [| discriminate]. simpl in H.
      pose proof (hash_Some_range _ _ _ _ Hh) as Hpos.
      unfold get_bit in H. destruct (Z.leb_spec 0 pos); [| lia].
      destruct (bitArray f !! Z.to_nat pos) as [b |] eqn:Hb; [| discriminate].
      simpl in H. destruct b; [| discriminate].
      apply elem_of_cons in Hj as [-> | Hj]; [eauto |].
      apply (proj1 (IH _) H j Hj).
    + intros Hall.
      destruct (Hall i (list_elem_of_here _ _)) as (pos & Hh & Hb).
      pose proof (hash_Some_range _ _ _ _ Hh) as Hpos.
      rewrite Hh. simpl.
      unfold get_bit. destruct (Z.leb_spec 0 pos); [| lia].
      rewrite Hb. simpl. apply IH. intros j Hj.
      apply Hall, list_elem_of_further, Hj.
Qed.

(** What [insert] writes: a bit is set afterwards exactly when it was set
    before or it is the position [hash(item, i)] of one of the
    [numHashFunctions] seeds. *)
Theorem insert_sets_exactly_the_probes (f f' : BloomFilter) (item : string) :
  numHashFunctions f <= size_t_modulus →
  insert f item = Some f' →
  ∀ p : nat,
    bitArray f' !! p = Some true
    ↔ bitArray f !! p = Some true
      ∨ ∃ i, 0 <= i < numHashFunctions f ∧ hash f item i = Some (Z.of_nat p).
Proof.
  intros Hk H p. rewrite (insert_loop_bits _ _ _ _ _ H p).
  split; (intros [Hp | (j & Hj & Hh)]; [left; exact Hp | right; exists j]).
  - split; [apply insert_seeds; assumption | exact Hh].
  - split; [apply insert_seeds; assumption | exact Hh].
Qed.

Lemma insert_sets_exactly_the_probes_witness :
  insert (new_BloomFilter 10 3) "ab"
  = Some {| bitArray := [true; true; false; false; false;
                         false; false; false; true; false];
            numHashFunctions := 3 |}
  ∧ ([true; true; false; false; false; false; false; false; true; false]
       !! 8%nat = Some true
     ↔ bitArray (new_BloomFilter 10 3) !! 8%nat = Some true
       ∨ ∃ i, 0 <= i < 3
              ∧ hash (new_BloomFilter 10 3) "ab" i = Some (Z.of_nat 8)).
Proof.
  split; [reflexivity |].
  apply (insert_sets_exactly_the_probes (new_BloomFilter 10 3)
           {| bitArray := [true; true; false; false; false;
                           false; false; false; true; false];
              numHashFunctions := 3 |} "ab").
  - vm_compute. discriminate.
  - reflexivity.
Defined.

(** What [mightContain] reads: it answers true exactly when the position of
    every seed is set, and on a non-empty bit array it answers false exactly
    when the position of some seed is clear. *)
Theorem mightContain_reads_exactly_the_probes (f : BloomFilter) (item : string) :
  numHashFunctions f <= size_t_modulus →
  (mightContain f item = Some true
   ↔ ∀ i, 0 <= i < numHashFunctions f →
          ∃ pos, hash f item i = Some pos
                 ∧ bitArray f !! Z.to_nat pos = Some true)
  ∧ (1 <= bitArray_size f →
     (mightContain f item = Some false
      ↔ ∃ i pos, 0 <= i < numHashFunctions f
                 ∧ hash f item i = Some pos
                 ∧ bitArray f !! Z.to_nat pos = Some false)).
Proof.
  intros Hk.
  assert (Htrue : mightContain f item = Some true
                  ↔ ∀ i, 0 <= i < numHashFunctions f →
                         ∃ pos, hash f item i = Some pos
                                ∧ bitArray f !! Z.to_nat pos = Some true).
  { unfold mightContain. rewrite mightContain_loop_true_iff.
    split; intros H i Hi; apply H; apply insert_seeds; assumption. }
  split; [exact Htrue |]. intros Hm. split.
  - intros Hfalse.
    assert (Hex : ∀ (count : nat) (i : Z),
              mightContain_loop count i item f = Some false →
              ∃ j pos, j ∈ probe_seeds count i ∧ hash f item j = Some pos
                       ∧ bitArray f !! Z.to_nat pos = Some false).
    { induction count as [| count IH]; intros i H; simpl in H; [discriminate |].
      destruct (hash f item i) as [pos |] eqn:Hh; [| discriminate]. simpl in H.
      pose proof (hash_Some_range _ _ _ _ Hh) as Hpos.
      unfold get_bit in H. destruct (Z.leb_spec 0 pos); [| lia].
      destruct (bitArray f !! Z.to_nat pos) as [b |] eqn:Hb; [| discriminate].
      simpl in H. destruct b.
      - destruct (IH _ H) as (j & pos' & Hj & Hh' & Hb').
        exists j, pos'. split; [apply list_elem_of_further, Hj | split; assumption].
      - exists i, pos. split; [apply list_elem_of_here | split; assumption]. }
    destruct (Hex _ _ Hfalse) as (j & pos & Hj & Hh & Hb).
    exists j, pos. split; [apply insert_seeds; assumption | split; assumption].
  - intros (i & pos & Hi & Hh & Hb).
    destruct (mightContain_loop_total (Z.to_nat (numHashFunctions f)) item 0 f Hm)
      as [b Hret].
    unfold mightContain. rewrite Hret. destruct b; [| reflexivity].
    change (mightContain f item = Some true) in Hret.
    destruct (proj1 Htrue Hret i Hi) as (pos' & Hh' & Hb'). congruence.
Qed.

Lemma mightContain_reads_exactly_the_probes_witness :
  (mightContain (new_BloomFilter 10 3) "ab" = Some true
   ↔ ∀ i, 0 <= i < 3 →
          ∃ pos, hash (new_BloomFilter 10 3) "ab" i = Some pos
                 ∧ bitArray (new_BloomFilter 10 3) !! Z.to_nat pos = Some true)
  ∧ (mightContain (new_BloomFilter 10 3) "ab" = Some false
     ↔ ∃ i pos, 0 <= i < 3
                ∧ hash (new_BloomFilter 10 3) "ab" i = Some pos
                ∧ bitArray (new_BloomFilter 10 3) !! Z.to_nat pos = Some false).
Proof.
  destruct (mightContain_reads_exactly_the_probes (new_BloomFilter 10 3) "ab")
    as [Htrue Hfalse]; [vm_compute; discriminate |].
  split; [exact Htrue |]. apply Hfalse. vm_compute. discriminate.
Defined.

(** A freshly constructed filter with at least one bit and one hash slot
    contains nothing: [mightContain] answers false for every string. *)
Theorem fresh_filter_contains_nothing (m k : Z) (item : string) :
  1 <= m → 1 <= k →
  mightContain (new_BloomFilter m k) item = Some false.
Proof.
  intros Hm Hk. unfold mightContain. simpl.
  destruct (Z.to_nat k) as [| count] eqn:E; [lia |]. simpl.
  assert (Hsize : 1 <= bitArray_size (new_BloomFilter m k)).
  { rewrite bitArray_size_new; lia. }
  destruct (hash_in_range (new_BloomFilter m k) item 0 Hsize) as (h & -> & Hh).
  simpl. rewrite bitArray_size_new in Hh by lia.
  unfold get_bit. destruct (Z.leb_spec 0 h); [| lia].
  rewrite lookup_replicate_2 by lia. reflexivity.
Qed.

Lemma fresh_filter_contains_nothing_witness :
  1 <= 9586 ∧ 1 <= 7 ∧ mightContain (new_BloomFilter 9586 7) "item0" = Some false.
Proof.
  split; [lia |]. split; [lia |].
  apply (fresh_filter_contains_nothing 9586 7 "item0"); lia.
Defined.

Lemma mightContain_loop_mono (count : nat) (item : string) (f g : BloomFilter) :
  length (bitArray g) = length (bitArray f) →
  bits_subset (bitArray f) (bitArray g) →
  ∀ i : Z,
    mightContain_loop count i item f = Some true →
    mightContain_loop count i item g = Some true.
Proof.
  intros Hlen Hsub i. rewrite !mightContain_loop_true_iff. intros H j Hj.
  destruct (H j Hj) as (pos & Hh & Hb). exists pos. split; [| apply Hsub, Hb].
  rewrite <- Hh. apply hash_same_size. unfold bitArray_size. congruence.
Qed.

Lemma mightContain_after_insert (f f' : BloomFilter) (item : string) :
  insert f item = Some f' → mightContain f' item = Some true.
Proof.
  intros H. pose proof (insert_preserves _ _ _ H) as (_ & Hk & _).
  unfold mightContain. rewrite Hk.
  eapply insert_loop_covers; [exact H | reflexivity | apply bits_subset_refl].
Qed.

(** A true answer is never taken back: once [mightContain] answers true for
    a string, inserted or not, it answers true after any further insertions. *)
Theorem true_answers_persist (f f' : BloomFilter) (items : list string) (item : string) :
  mightContain f item = Some true →
  insert_all f items = Some f' →
  mightContain f' item = Some true.
Proof.
  intros Htrue Hins.
  apply insert_all_preserves in Hins as (Hlen & Hk & Hsub).
  unfold mightContain in *. rewrite Hk.
  eapply mightContain_loop_mono; eauto.
Qed.

Lemma true_answers_persist_witness :
  ∃ f f', insert (new_BloomFilter 10 3) "ab" = Some f
          ∧ insert_all f ["cd"; "ef"] = Some f'
          ∧ mightContain f' "ab" = Some true.
Proof.
  destruct (insert_total (new_BloomFilter 10 3) "ab") as [f Hf];
    [vm_compute; discriminate |].
  assert (Hsize : 1 <= bitArray_size f).
  { apply insert_preserves in Hf as (Hlen & _ & _).
    unfold bitArray_size. rewrite Hlen. vm_compute. discriminate. }
  destruct (insert_all_total ["cd"; "ef"] f Hsize) as [f' Hf'].
  exists f, f'. split; [exact Hf |]. split; [exact Hf' |].
  apply (true_answers_persist f f' ["cd"; "ef"] "ab"); [| exact Hf'].
  exact (mightContain_after_insert _ _ _ Hf).
Defined.

Lemma all_bits_set_mightContain_loop
  (count : nat) (i : Z) (f : BloomFilter) (item : string) :
  1 <= bitArray_size f →
  (∀ (p : nat) (b : bool), bitArray f !! p = Some b → b = true) →
  mightContain_loop count i item f = Some true.
Proof.
  intros Hm Hall. apply mightContain_loop_true_iff.
  intros j _. destruct (hash_in_range f item j Hm) as (pos & Hh & Hpos).
  exists pos. split; [exact Hh |].
  destruct (lookup_lt_is_Some_2 (bitArray f) (Z.to_nat pos)) as [b Hb].
  { unfold bitArray_size in Hpos. lia. }
  rewrite Hb. f_equal. eapply Hall, Hb.
Qed.

Lemma all_bits_set_mightContain (f : BloomFilter) (item : string) :
  1 <= bitArray_size f →
  (∀ (p : nat) (b : bool), bitArray f !! p = Some b → b = true) →
  mightContain f item = Some true.
Proof. apply all_bits_set_mightContain_loop. Qed.

(** A saturated filter accepts everything: when every bit of a non-empty bit
    array is set, [mightContain] answers true for every string, whatever the
    hash count. *)
Theorem saturated_filter_accepts_everything (f : BloomFilter) (item : string) :
  1 <= bitArray_size f →
  (∀ (p : nat) (b : bool), bitArray f !! p = Some b → b = true) →
  mightContain f item = Some true.
Proof.
  intros Hm Hall. unfold mightContain.
  apply all_bits_set_mightContain_loop; assumption.
Qed.

Lemma saturated_filter_accepts_everything_witness :
  mightContain {| bitArray := [true; true; true]; numHashFunctions := 5 |}
    "never inserted" = Some true.
Proof.
  apply saturated_filter_accepts_everything.
  - vm_compute. discriminate.
  - intros p b. destruct p as [| [| [| p]]]; simpl; intros [= <-]; reflexivity.
Defined.

(** A one-bit filter is saturated by its first insertion: with
    [numHashes >= 1], after inserting any one string it answers true for
    every string. *)
Theorem one_bit_filter_saturates (k : Z) (item other : string) :
  1 <= k →
  ∃ f, insert (new_BloomFilter 1 k) item = Some f
       ∧ bitArray f = [true]
       ∧ mightContain f other = Some true.
Proof.
  intros Hk.
  destruct (insert_total (new_BloomFilter 1 k) item) as [f Hf].
  { rewrite bitArray_size_new; lia. }
  pose proof (insert_preserves _ _ _ Hf) as (Hlen & _ & _). simpl in Hlen.
  assert (Hbits : bitArray f = [true]).
  { unfold insert in Hf. simpl in Hf.
    destruct (Z.to_nat k) as [| count] eqn:E; [lia |].
    pose proof (insert_loop_bits _ _ _ _ _ Hf 0%nat) as Hbit.
    destruct (hash_in_range (new_BloomFilter 1 k) item 0) as (h & Hh & Hr).
    { rewrite bitArray_size_new; lia. }
    rewrite bitArray_size_new in Hr by lia.
    assert (H0 : bitArray f !! 0%nat = Some true).
    { apply Hbit. right. exists 0. split; [apply list_elem_of_here |].
      rewrite Hh. f_equal. lia. }
    destruct (bitArray f) as [| b [| b' rest]]; simpl in *; try discriminate.
    congruence. }
  exists f. split; [exact Hf |]. split; [exact Hbits |].
  apply all_bits_set_mightContain.
  - unfold bitArray_size. rewrite Hbits. simpl. lia.
  - rewrite Hbits. intros [| p] b; simpl; [congruence | discriminate].
Qed.

Lemma one_bit_filter_saturates_witness :
  1 <= 3
  ∧ ∃ f, insert (new_BloomFilter 1 3) "item0" = Some f
         ∧ bitArray f = [true]
         ∧ mightContain f "item1" = Some true.
Proof.
  split; [lia |]. apply (one_bit_filter_saturates 3 "item0" "item1"). lia.
Defined.

(** *** Sequences of insertions as sets of strings *)

Lemma insert_all_bits (items : list string) :
  ∀ (f f' : BloomFilter),
    insert_all f items = Some f' →
    ∀ p : nat,
      bitArray f' !! p = Some true
      ↔ bitArray f !! p = Some true
        ∨ ∃ item j, item ∈ items
                    ∧ j ∈ probe_seeds (Z.to_nat (numHashFunctions f)) 0
                    ∧ hash f item j = Some (Z.of_nat p).
Proof.
  induction items as [| item rest IH]; intros f f' H p; simpl in H.
  - injection H as <-. split; [tauto |].
    intros [Hp | (item & j & Hin & _)]; [exact Hp |]. apply elem_of_nil in Hin as [].
  - destruct (insert f item) as [f1 |] eqn:H1; [| discriminate]. simpl in H.
    pose proof (insert_preserves _ _ _ H1) as (Hlen & Hk & _).
    rewrite (IH _ _ H p), Hk. rewrite (insert_loop_bits _ _ _ _ _ H1 p).
    assert (Hsame : ∀ s j, hash f1 s j = hash f s j).
    { intros s j. apply hash_same_size. unfold bitArray_size. congruence. }
    split.
    + intros [[Hp | (j & Hj & Hh)] | (s & j & Hin & Hj & Hh)].
      * left. exact Hp.
      * right. exists item, j. split; [apply list_elem_of_here | split; assumption].
      * right. exists s, j. rewrite Hsame in Hh.
        split; [apply list_elem_of_further, Hin | split; assumption].
    + intros [Hp | (s & j & Hin & Hj & Hh)].
      * left. left. exact Hp.
      * apply elem_of_cons in Hin as [-> | Hin].
        -- left. right. exists j. split; assumption.
        -- right. exists s, j. rewrite Hsame. split; [exact Hin | split; assumption].
Qed.

Lemma insert_all_is_Some (items : list string) (f : BloomFilter) :
  is_Some (insert_all f items)
  ↔ items = [] ∨ 1 <= bitArray_size f ∨ numHashFunctions f <= 0.
Proof.
  split.
  - intros [f' H]. destruct items as [| item rest]; [left; reflexivity |].
    right. pose proof (bitArray_size_nonneg f) as Hnn.
    destruct (Z.eq_dec (bitArray_size f) 0) as [E0 | Hne]; [| left; lia].
    destruct (Z_le_gt_dec (numHashFunctions f) 0) as [Hk | Hk]; [right; exact Hk |].
    exfalso. simpl in H. unfold insert in H.
    destruct (Z.to_nat (numHashFunctions f)) as [| count] eqn:E; [lia |].
    simpl in H. unfold hash in H. rewrite E0 in H. simpl in H. discriminate.
  - intros [-> | [Hm | Hk]].
    + simpl. eauto.
    + destruct (insert_all_total items f Hm) as [f' H]. rewrite H. eauto.
    + induction items as [| item rest IH]; simpl; [eauto |].
      unfold insert. replace (Z.to_nat (numHashFunctions f)) with 0%nat by lia.
      simpl. exact IH.
Qed.

Lemma bool_lists_equal (a b : list bool) :
  length a = length b →
  (∀ p : nat, a !! p = Some true ↔ b !! p = Some true) →
  a = b.
Proof.
  intros Hlen Hbits. apply list_eq. intros p.
  destruct (a !! p) as [x |] eqn:Ha; destruct (b !! p) as [y |] eqn:Hb.
  - f_equal. destruct x, y; try reflexivity.
    + apply Hbits in Ha. congruence.
    + apply Hbits in Hb. congruence.
  - apply lookup_lt_Some in Ha. apply lookup_ge_None in Hb. lia.
  - apply lookup_ge_None in Ha. apply lookup_lt_Some in Hb. lia.
  - reflexivity.
Qed.

(** The filter depends on the set of inserted strings only: two sequences
    of insertions with the same elements, in any order and with any
    repetitions, leave the filter in the same state. *)
Theorem insert_order_and_repeats_do_not_matter
  (f : BloomFilter) (items1 items2 : list string) :
  (∀ item, item ∈ items1 ↔ item ∈ items2) →
  insert_all f items1 = insert_all f items2.
Proof.
  intros Hsame.
  assert (Hdef : is_Some (insert_all f items1) ↔ is_Some (insert_all f items2)).
  { rewrite !insert_all_is_Some.
    assert (Hnil : items1 = [] ↔ items2 = []).
    { split; intros ->.
      - destruct items2 as [| x rest]; [reflexivity |].
        destruct (proj1 (elem_of_nil x) (proj2 (Hsame x) (list_elem_of_here _ _))).
      - destruct items1 as [| x rest]; [reflexivity |].
        destruct (proj1 (elem_of_nil x) (proj1 (Hsame x) (list_elem_of_here _ _))). }
    tauto. }
  destruct (insert_all f items1) as [f1 |] eqn:H1;
    destruct (insert_all f items2) as [f2 |] eqn:H2.
  - f_equal.
    pose proof (insert_all_preserves _ _ _ H1) as (L1 & K1 & _).
    pose proof (insert_all_preserves _ _ _ H2) as (L2 & K2 & _).
    assert (Hbits : bitArray f1 = bitArray f2).
    { apply bool_lists_equal; [congruence |]. intros p.
      rewrite (insert_all_bits _ _ _ H1 p), (insert_all_bits _ _ _ H2 p).
      split; (intros [Hp | (s & j & Hin & Hj & Hh)];
              [left; exact Hp | right; exists s, j]);
        (split; [apply Hsame, Hin | split; assumption]). }
    destruct f1 as [b1 k1], f2 as [b2 k2]. simpl in *. congruence.
  - destruct (proj1 Hdef (mk_is_Some _ _ eq_refl)) as [? [=]].
  - destruct (proj2 Hdef (mk_is_Some _ _ eq_refl)) as [? [=]].
  - reflexivity.
Qed.

Lemma insert_order_and_repeats_do_not_matter_witness :
  insert_all (new_BloomFilter 10 3) ["ab"; "cd"; "ab"]
  = insert_all (new_BloomFilter 10 3) ["cd"; "ab"].
Proof.
  apply insert_order_and_repeats_do_not_matter.
  intros item. rewrite !elem_of_cons, !elem_of_nil. tauto.
Defined.

(** *** How many bits an insertion sets *)

Lemma count_set_bits_insert (bits : list bool) :
  ∀ n : nat,
    (count_set_bits bits <= count_set_bits (<[n := true]> bits)
     <= S (count_set_bits bits))%nat.
Proof.
  induction bits as [| b rest IH]; intros n; simpl.
  - lia.
  - destruct n as [| n]; simpl.
    + destruct b; lia.
    + specialize (IH n). lia.
Qed.

Lemma insert_loop_count (count : nat) (item : string) :
  ∀ (i : Z) (f f' : BloomFilter),
    insert_loop count i item f = Some f' →
    (count_set_bits (bitArray f) <= count_set_bits (bitArray f')
     <= count_set_bits (bitArray f) + count)%nat.
Proof.
  induction count as [| count IH]; intros i f f' H; simpl in H.
  - injection H as <-. lia.
  - destruct (hash f item i) as [pos |] eqn:Hh; [| discriminate]. simpl in H.
    destruct (set_bit (bitArray f) pos) as [bits |] eqn:Hs; [| discriminate].
    simpl in H. apply set_bit_Some in Hs as [_ ->].
    apply IH in H. simpl in H.
    pose proof (count_set_bits_insert (bitArray f) (Z.to_nat pos)). lia.
Qed.

(** One insertion sets between 0 and [numHashFunctions] new bits, and never
    clears one: the number of set bits grows by at most the hash count. *)
Theorem insert_sets_at_most_k_bits (f f' : BloomFilter) (item : string) :
  insert f item = Some f' →
  (count_set_bits (bitArray f) <= count_set_bits (bitArray f')
   <= count_set_bits (bitArray f) + Z.to_nat (numHashFunctions f))%nat.
Proof. apply insert_loop_count. Qed.

Lemma insert_sets_at_most_k_bits_witness :
  (count_set_bits (bitArray (new_BloomFilter 10 3))
   <= count_set_bits [true; true; false; false; false;
                      false; false; false; true; false]
   <= count_set_bits (bitArray (new_BloomFilter 10 3)) + Z.to_nat 3)%nat.
Proof.
  apply (insert_sets_at_most_k_bits (new_BloomFilter 10 3)
           {| bitArray := [true; true; false; false; false;
                           false; false; false; true; false];
              numHashFunctions := 3 |} "ab").
  reflexivity.
Defined.

(** Insertions change neither the reported memory usage nor the hash count:
    the footprint of a filter is fixed at construction. *)
Theorem insertions_keep_the_footprint
  (f f' : BloomFilter) (items : list string) :
  insert_all f items = Some f' →
  getMemoryUsage f' = getMemoryUsage f
  ∧ numHashFunctions f' = numHashFunctions f.
Proof.
  intros H. apply insert_all_preserves in H as (Hlen & Hk & _).
  split; [| exact Hk]. unfold getMemoryUsage, bitArray_size. rewrite Hlen.
  reflexivity.
Qed.

Lemma insertions_keep_the_footprint_witness :
  ∃ f', insert_all (new_BloomFilter 10 3) ["ab"; "cd"] = Some f'
        ∧ getMemoryUsage f' = getMemoryUsage (new_BloomFilter 10 3)
        ∧ numHashFunctions f' = numHashFunctions (new_BloomFilter 10 3).
Proof.
  destruct (insert_all_total ["ab"; "cd"] (new_BloomFilter 10 3)) as [f' H];
    [vm_compute; discriminate |].
  exists f'. split; [exact H |].
  exact (insertions_keep_the_footprint _ _ _ H).
Defined.

(** The empty string is an item like any other; its hash is the seed itself
    reduced modulo the size.  Inserted into a fresh filter with no more hash
    slots than bits, it sets exactly the bits [0 .. numHashes - 1]. *)
Theorem insert_empty_string_sets_first_bits (m k : Z) :
  1 <= m → 0 <= k <= m → m <= size_t_modulus →
  ∃ f', insert (new_BloomFilter m k) "" = Some f'
        ∧ ∀ p : nat, bitArray f' !! p = Some true ↔ Z.of_nat p < k.
Proof.
  intros Hm Hk Hmax.
  assert (Hsize : bitArray_size (new_BloomFilter m k) = m).
  { apply bitArray_size_new. lia. }
  destruct (insert_total (new_BloomFilter m k) "") as [f' H]; [lia |].
  exists f'. split; [exact H |]. intros p.
  rewrite (insert_loop_bits _ _ _ _ _ H p).
  assert (Hhash : ∀ i, 0 <= i < k →
            hash (new_BloomFilter m k) "" i = Some i).
  { intros i Hi. unfold hash. rewrite Hsize.
    destruct (Z.eqb_spec m 0) as [E | _]; [lia |].
    simpl. rewrite Z.mod_small by lia. reflexivity. }
  simpl. split.
  - intros [Hp | (i & Hi & Hh)].
    + apply lookup_replicate in Hp as [[=] _].
    + apply insert_seeds in Hi; [| lia].
      rewrite Hhash in Hh by exact Hi. injection Hh as ->. lia.
  - intros Hp. right. exists (Z.of_nat p).
    split; [apply insert_seeds; lia | apply Hhash; lia].
Qed.

Lemma insert_empty_string_sets_first_bits_witness :
  ∃ f', insert (new_BloomFilter 10 3) "" = Some f'
        ∧ ∀ p : nat, bitArray f' !! p = Some true ↔ Z.of_nat p < 3.
Proof.
  apply (insert_empty_string_sets_first_bits 10 3);
    [lia | lia | vm_compute; discriminate].
Defined.

(** *** The mixing function *)

Lemma size_t_bits_high (a n : Z) :
  0 <= a < size_t_modulus → 64 <= n → Z.testbit a n = false.
Proof.
  intros Ha Hn. rewrite <- (Z.mod_small a (2 ^ 64)) by exact Ha.
  apply Z.mod_pow2_bits_high. lia.
Qed.

Lemma lxor_size_t (a b : Z) :
  0 <= a < size_t_modulus → 0 <= b < size_t_modulus →
  0 <= Z.lxor a b < size_t_modulus.
Proof.
  intros Ha Hb.
  assert (Hnn : 0 <= Z.lxor a b) by (apply Z.lxor_nonneg; lia).
  split; [exact Hnn |].
  destruct (Z.eq_dec (Z.lxor a b) 0) as [-> | Hne]; [reflexivity |].
  unfold size_t_modulus in *. apply Z.log2_lt_pow2; [lia |].
  pose proof (Z.log2_lxor a b ltac:(lia) ltac:(lia)) as Hlog.
  assert (Hla : Z.log2 a < 64).
  { destruct (Z.eq_dec a 0) as [-> | Ha0]; [reflexivity |].
    apply Z.log2_lt_pow2; lia. }
  assert (Hlb : Z.log2 b < 64).
  { destruct (Z.eq_dec b 0) as [-> | Hb0]; [reflexivity |].
    apply Z.log2_lt_pow2; lia. }
  lia.
Qed.

Lemma wrap_range (z : Z) : 0 <= wrap z < size_t_modulus.
Proof. unfold wrap. apply Z.mod_pos_bound. reflexivity. Qed.

Lemma char_to_size_t_range (c : ascii) : 0 <= char_to_size_t c < size_t_modulus.
Proof.
  unfold char_to_size_t.
  destruct (Z.ltb_spec (Z.of_N (N_of_ascii c)) 128) as [Hlt | Hge].
  - unfold size_t_modulus. lia.
  - apply wrap_range.
Qed.

Lemma shiftr_size_t (a : Z) :
  0 <= a < size_t_modulus → 0 <= Z.shiftr a 15 < size_t_modulus.
Proof.
  intros Ha. split; [apply Z.shiftr_nonneg; lia |].
  rewrite Z.shiftr_div_pow2 by lia.
  apply Z.le_lt_trans with a; [| lia].
  apply Z.div_le_upper_bound; lia.
Qed.

Lemma mix_range (h : Z) (c : ascii) :
  0 <= h < size_t_modulus → 0 <= mix h c < size_t_modulus.
Proof.
  intros Hh. unfold mix.
  apply lxor_size_t; [apply wrap_range | apply shiftr_size_t, wrap_range].
Qed.

Lemma hash_loop_range (item : string) :
  ∀ seed : Z,
    0 <= seed < size_t_modulus → 0 <= hash_loop item seed < size_t_modulus.
Proof.
  induction item as [| c rest IH]; intros seed Hseed; simpl.
  - exact Hseed.
  - apply IH, mix_range, Hseed.
Qed.

Lemma lxor_cancel_r (a b c : Z) : Z.lxor a c = Z.lxor b c → a = b.
Proof.
  intros H.
  assert (Hundo : ∀ x, Z.lxor (Z.lxor x c) c = x).
  { intros x. rewrite Z.lxor_assoc, Z.lxor_nilpotent. apply Z.lxor_0_r. }
  rewrite <- (Hundo a), <- (Hundo b), H. reflexivity.
Qed.

(** [0x5bd1e995] is odd, hence invertible modulo [2^64]. *)
Lemma multiply_injective (a b : Z) :
  0 <= a < size_t_modulus → 0 <= b < size_t_modulus →
  wrap (a * 0x5bd1e995) = wrap (b * 0x5bd1e995) → a = b.
Proof.
  intros Ha Hb H.
  assert (Hinv : ∀ x, 0 <= x < size_t_modulus →
            wrap (wrap (x * 0x5bd1e995) * 0x39c9eb52e59b19bd) = x).
  { intros x Hx. unfold wrap, size_t_modulus in *.
    rewrite Z.mul_mod_idemp_l by lia.
    replace (x * 0x5bd1e995 * 0x39c9eb52e59b19bd)
      with (x + x * 347744570 * 2 ^ 64) by lia.
    rewrite Z.mod_add by lia. apply Z.mod_small, Hx. }
  rewrite <- (Hinv a Ha), <- (Hinv b Hb), H. reflexivity.
Qed.

(** [h ^ (h >> 15)] determines [h]: the top 15 bits are copied, and each
    lower bit is recovered from the bit 15 places above it. *)
Lemma xorshift_injective (a b : Z) :
  0 <= a < size_t_modulus → 0 <= b < size_t_modulus →
  Z.lxor a (Z.shiftr a 15) = Z.lxor b (Z.shiftr b 15) → a = b.
Proof.
  intros Ha Hb H. apply Z.bits_inj'.
  assert (Hbits : ∀ (d : nat) (n : Z),
            0 <= n → 64 <= n + Z.of_nat d → Z.testbit a n = Z.testbit b n).
  { induction d as [| d IH]; intros n Hn Hd.
    - rewrite !size_t_bits_high by (assumption || lia). reflexivity.
    - destruct (Z_le_gt_dec 64 n) as [Hhigh | Hlow].
      + rewrite !size_t_bits_high by (assumption || lia). reflexivity.
      + assert (Hbit : Z.testbit (Z.lxor a (Z.shiftr a 15)) n
                       = Z.testbit (Z.lxor b (Z.shiftr b 15)) n) by (rewrite H; reflexivity).
        rewrite !Z.lxor_spec, !Z.shiftr_spec in Hbit by exact Hn.
        rewrite (IH (n + 15)) in Hbit by lia.
        destruct (Z.testbit a n), (Z.testbit b n), (Z.testbit b (n + 15));
          simpl in Hbit; congruence. }
  intros n Hn. apply (Hbits (Z.to_nat 64) n Hn). lia.
Qed.

Lemma mix_injective (h1 h2 : Z) (c : ascii) :
  0 <= h1 < size_t_modulus → 0 <= h2 < size_t_modulus →
  mix h1 c = mix h2 c → h1 = h2.
Proof.
  intros H1 H2 H. unfold mix in H.
  apply xorshift_injective in H; [| apply wrap_range | apply wrap_range].
  apply multiply_injective in H;
    [| apply lxor_size_t; [assumption | apply char_to_size_t_range]
     | apply lxor_size_t; [assumption | apply char_to_size_t_range]].
  apply lxor_cancel_r in H. exact H.
Qed.

(** The accumulator of [hash] stays a 64-bit value, and for a fixed string
    it is an injective function of the seed: two different seeds never mix
    to the same value before the reduction modulo the size. *)
Theorem hash_accumulator_separates_seeds (item : string) (seed1 seed2 : Z) :
  0 <= seed1 < size_t_modulus → 0 <= seed2 < size_t_modulus →
  0 <= hash_loop item seed1 < size_t_modulus
  ∧ (hash_loop item seed1 = hash_loop item seed2 → seed1 = seed2).
Proof.
  intros H1 H2. split; [apply hash_loop_range, H1 |].
  revert seed1 seed2 H1 H2.
  induction item as [| c rest IH]; intros seed1 seed2 H1 H2 H; simpl in H.
  - exact H.
  - apply IH in H; [| apply mix_range, H1 | apply mix_range, H2].
    apply (mix_injective _ _ c); assumption.
Qed.

Lemma hash_accumulator_separates_seeds_witness :
  0 <= hash_loop "item0" 0 < size_t_modulus
  ∧ (hash_loop "item0" 0 = hash_loop "item0" 1 → 0 = 1).
Proof.
  apply (hash_accumulator_separates_seeds "item0" 0 1);
    unfold size_t_modulus; lia.
Defined.

(** ** Further properties of the capacity planner *)

Lemma ln_negative (p : R) : (0 < p < 1)%R → (ln p < 0)%R.
Proof. intros [H0 H1]. rewrite <- ln_1. apply ln_increasing; assumption. Qed.

Lemma ideal_m_positive (n : Z) (p : R) :
  1 <= n → (0 < p < 1)%R → (0 < - (IZR n * ln p) / (ln 2 * ln 2))%R.
Proof.
  intros Hn Hp. pose proof (ln_negative p Hp) as Hln.
  pose proof ln_2_lower as H2. pose proof (IZR_le _ _ Hn) as Hn'.
  unfold Rdiv. apply Rmult_lt_0_compat; [nra |].
  apply Rinv_0_lt_compat. nra.
Qed.

Lemma ceilZ_positive (x : R) : (0 < x)%R → 1 <= ceilZ x.
Proof.
  intros Hx. pose proof (ceilZ_spec x) as [_ Hup].
  assert (H : (0 < IZR (ceilZ x))%R) by lra.
  apply lt_IZR in H. lia.
Qed.

Lemma planner_k_positive (m n : Z) :
  1 <= n → n <= m → 1 <= ceilZ (IZR (m / n) * ln 2)%R.
Proof.
  intros Hn Hm. assert (Hq : 1 <= m / n) by (apply Z.div_le_lower_bound; lia).
  pose proof ln_2_lower as H2. pose proof (IZR_le _ _ Hq) as Hq'.
  apply ceilZ_positive. nra.
Qed.

(** On valid input the planner never returns an empty bit array; the hash
    count is at most the integer quotient [m / n], and it is zero exactly
    when [m < n]. *)
Theorem optimalParameters_result_shape (n : Z) (p : R) (m k : Z) :
  1 <= n → (0 < p < 1)%R →
  optimalParameters n p = Some (m, k) →
  1 <= m ∧ 0 <= k <= m / n ∧ (k = 0 ↔ m < n).
Proof.
  intros Hn Hp H.
  pose proof (optimalParameters_returns_m n p m k ltac:(lra) H) as [Em Hr].
  assert (Hm : 1 <= m).
  { rewrite Em. apply ceilZ_positive, ideal_m_positive; assumption. }
  destruct (optimalParameters_from_m n p m Hn ltac:(lra)) as [H' Hk].
  { rewrite <- Em. apply to_size_t_in_range, Hr. }
  assert (Ek : k = ceilZ (IZR (m / n) * ln 2)%R) by congruence.
  split; [exact Hm |]. split; [rewrite Ek; exact Hk |]. split.
  - intros E0. destruct (Z_lt_le_dec m n) as [Hlt | Hge]; [exact Hlt |].
    exfalso. pose proof (planner_k_positive m n Hn Hge). lia.
  - intros Hlt. rewrite Z.div_small in Hk, Ek by lia. lia.
Qed.

Lemma optimalParameters_result_shape_witness :
  1 <= 3 ∧ 0 <= 0 <= 3 / 100 ∧ (0 = 0 ↔ 3 < 100).
Proof.
  apply (optimalParameters_result_shape 100 (99 / 100)%R 3 0);
    [lia | lra | apply optimalParameters_100_099].
Defined.

(** The integer division costs at most one hash function: the returned [k]
    is the specified [ceil((m / n) * ln 2)] or one less, never more. *)
Theorem optimalParameters_k_at_most_one_short (n : Z) (p : R) (m k : Z) :
  1 <= n → (0 < p < 1)%R →
  optimalParameters n p = Some (m, k) →
  spec_k m n - 1 <= k <= spec_k m n.
Proof.
  intros Hn Hp H.
  pose proof (optimalParameters_returns_m n p m k ltac:(lra) H) as [_ Hr].
  destruct (optimalParameters_formula n p m k Hn Hp H) as [_ ->].
  pose proof ln_2_lower as Hlo. pose proof ln_2_upper as Hhi.
  pose proof (IZR_le _ _ Hn) as Hn'.
  assert (Hfloor : (IZR (m / n) <= IZR m / IZR n < IZR (m / n) + 1)%R).
  { pose proof (Z.mul_div_le m n ltac:(lia)) as Hlow.
    pose proof (Z.mul_succ_div_gt m n ltac:(lia)) as Hupp.
    apply IZR_le in Hlow. apply IZR_lt in Hupp.
    rewrite mult_IZR in Hlow. rewrite mult_IZR, succ_IZR in Hupp.
    assert (E : (IZR m / IZR n * IZR n = IZR m)%R) by (field; lra).
    split; nra. }
  unfold spec_k. split.
  - pose proof (ceilZ_spec (IZR m / IZR n * ln 2)) as [Hs _].
    pose proof (ceilZ_spec (IZR (m / n) * ln 2)) as [_ Hc].
    assert (Hlt : (IZR (ceilZ (IZR m / IZR n * ln 2)) - 1
                   < IZR (ceilZ (IZR (m / n) * ln 2)) + 1)%R) by nra.
    rewrite <- minus_IZR, <- plus_IZR in Hlt. apply lt_IZR in Hlt. lia.
  - apply ceilZ_mono. nra.
Qed.

Lemma optimalParameters_k_at_most_one_short_witness :
  spec_k 3 100 - 1 <= 0 <= spec_k 3 100.
Proof.
  apply (optimalParameters_k_at_most_one_short 100 (99 / 100)%R 3 0);
    [lia | lra | apply optimalParameters_100_099].
Defined.

Lemma planner_returns_in_range (n : Z) (p : R) :
  1 <= n → (0 < p < 1)%R → (IZR n / p <= IZR (2 ^ 62))%R →
  ∃ m k, optimalParameters n p = Some (m, k).
Proof.
  intros Hn Hp Hbound.
  pose proof ln_2_lower as Hlo. pose proof (IZR_le _ _ Hn) as Hn'.
  set (x := (- (IZR n * ln p) / (ln 2 * ln 2))%R).
  assert (Hx0 : (0 < x)%R) by (apply ideal_m_positive; assumption).
  assert (Hln : (- ln p <= / p - 1)%R).
  { rewrite <- ln_Rinv by lra. apply ln_le_minus_1.
    apply Rinv_0_lt_compat. lra. }
  assert (Hxup : (x <= IZR (2 ^ 62) * 3)%R).
  { set (D := (ln 2 * ln 2)%R). assert (HD : (9 / 25 < D)%R) by (unfold D; nra).
    assert (E : (x * D = - (IZR n * ln p))%R) by (unfold x, D; field; lra).
    assert (Hnp : (IZR n * (- ln p) <= IZR n / p)%R).
    { unfold Rdiv. assert (0 < / p)%R by (apply Rinv_0_lt_compat; lra). nra. }
    assert (Hpos : (0 <= IZR n / p)%R).
    { unfold Rdiv. assert (0 < / p)%R by (apply Rinv_0_lt_compat; lra). nra. }
    nra. }
  assert (Hrange : 0 <= ceilZ x < size_t_modulus).
  { split; [pose proof (ceilZ_positive x Hx0); lia |].
    pose proof (ceilZ_spec x) as [Hlow _].
    assert (Hlt : (IZR (ceilZ x) < IZR (2 ^ 62 * 3 + 1))%R).
    { rewrite plus_IZR, mult_IZR. lra. }
    apply lt_IZR in Hlt. unfold size_t_modulus. lia. }
  destruct (optimalParameters_from_m n p (ceilZ x) Hn ltac:(lra)) as [H _].
  { apply to_size_t_in_range, Hrange. }
  eauto.
Qed.

Lemma planner_usable_below_one_half (n : Z) (p : R) (m k : Z) :
  1 <= n → (0 < p <= 1 / 2)%R →
  optimalParameters n p = Some (m, k) →
  n < m ∧ 1 <= k.
Proof.
  intros Hn Hp H.
  pose proof (optimalParameters_returns_m n p m k ltac:(lra) H) as [Em _].
  pose proof ln_2_lower as Hlo. pose proof ln_2_upper as Hhi.
  pose proof (IZR_le _ _ Hn) as Hn'.
  assert (Hln : (ln p <= - ln 2)%R).
  { rewrite <- ln_Rinv by lra.
    destruct (Rle_lt_or_eq_dec _ _ (proj2 Hp)) as [Hlt | ->].
    - left. apply ln_increasing; lra.
    - right. f_equal. lra. }
  assert (Hbig : (IZR n < - (IZR n * ln p) / (ln 2 * ln 2))%R).
  { set (D := (ln 2 * ln 2)%R). assert (HD : (0 < D < ln 2)%R) by (unfold D; nra).
    assert (E : (- (IZR n * ln p) / D * D = - (IZR n * ln p))%R) by (field; lra).
    assert (Hnum : (IZR n * ln 2 <= - (IZR n * ln p))%R) by nra.
    nra. }
  assert (Hm : n < m).
  { rewrite Em. pose proof (ceilZ_spec (- (IZR n * ln p) / (ln 2 * ln 2))) as [_ Hup].
    apply lt_IZR. lra. }
  split; [exact Hm |].
  destruct (optimalParameters_formula n p m k Hn ltac:(lra) H) as [_ ->].
  apply planner_k_positive; lia.
Qed.

(** A target rate of one half or tighter always yields a usable pair: more
    bits than expected elements and at least one hash function. *)
Theorem optimalParameters_usable_below_one_half (n : Z) (p : R) (m k : Z) :
  1 <= n → (0 < p <= 1 / 2)%R →
  optimalParameters n p = Some (m, k) →
  n < m ∧ 1 <= k.
Proof. apply planner_usable_below_one_half. Qed.

Lemma optimalParameters_usable_below_one_half_witness :
  ∃ m k, optimalParameters 1000 (1 / 100) = Some (m, k) ∧ 1000 < m ∧ 1 <= k.
Proof.
  destruct (planner_returns_in_range 1000 (1 / 100)) as (m & k & H).
  - lia.
  - lra.
  - replace (IZR 1000 / (1 / 100))%R with (IZR 100000) by (simpl; field).
    apply IZR_le. lia.
  - exists m, k. split; [exact H |].
    apply (optimalParameters_usable_below_one_half 1000 (1 / 100)%R m k);
      [lia | lra | exact H].
Defined.

(** The planner returns whenever [n / p] is at most [2^62]; every
    configuration of the benchmark driver is far inside that range. *)
Theorem optimalParameters_returns (n : Z) (p : R) :
  1 <= n → (0 < p < 1)%R → (IZR n / p <= IZR (2 ^ 62))%R →
  ∃ m k, optimalParameters n p = Some (m, k).
Proof. apply planner_returns_in_range. Qed.

Lemma optimalParameters_returns_witness :
  ∃ m k, optimalParameters 100000 (1 / 100) = Some (m, k).
Proof.
  apply optimalParameters_returns; [lia | lra |].
  replace (IZR 100000 / (1 / 100))%R with (IZR 10000000) by (simpl; field).
  apply IZR_le. lia.
Defined.

(** ** The benchmark driver *)

Lemma to_string_injective (i j : Z) : to_string i = to_string j → i = j.
Proof.
  assert (Hparse : ∀ z, NilZero.int_of_string (to_string z) = Some (Z.to_int z)).
  { intros z. unfold to_string. apply NilZero.isi.
    - destruct z; simpl; [discriminate | | discriminate].
      intros [= E]. exact (DecimalPos.Unsigned.to_uint_nonnil _ E).
    - destruct z; simpl; [discriminate | discriminate |].
      intros [= E]. exact (DecimalPos.Unsigned.to_uint_nonnil _ E). }
  intros H. apply DecimalZ.to_int_inj.
  pose proof (Hparse i) as Hi. rewrite H, Hparse in Hi. congruence.
Qed.

Lemma item_key_injective (i j : Z) : item_key i = item_key j → i = j.
Proof.
  unfold item_key. simpl. intros [= H]. apply to_string_injective, H.
Qed.

(** The generated keys are pairwise distinct: [item_key] is injective.  So
    the inserted keys ([i < numItems]) are all different, and no probed key
    ([j >= numItems]) is one of them: every true answer counted by the
    driver is a false positive. *)
Theorem item_keys_are_distinct :
  (∀ i j : Z, item_key i = item_key j ↔ i = j)
  ∧ (∀ numItems i j : Z, i < numItems → numItems <= j → item_key i ≠ item_key j).
Proof.
  split.
  - intros i j. split; [apply item_key_injective | intros ->; reflexivity].
  - intros numItems i j Hi Hj E. apply item_key_injective in E. lia.
Qed.

Lemma item_keys_are_distinct_witness :
  999 < 1000 ∧ 1000 <= 1000 ∧ item_key 999 ≠ item_key 1000.
Proof.
  split; [lia |]. split; [lia |].
  apply (proj2 item_keys_are_distinct 1000 999 1000); lia.
Defined.

Lemma int_add_in_range (a b : Z) :
  int_min <= a + b <= int_max → int_add a b = Some (a + b).
Proof.
  intros [Hlo Hhi]. unfold int_add.
  destruct (Z.leb_spec int_min (a + b)); [| lia].
  destruct (Z.leb_spec (a + b) int_max); [| lia]. reflexivity.
Qed.

(** The first loop: it runs to its end, equals the sequence of [insert]
    calls on the generated keys, and adds one element to the set per
    iteration. *)
Lemma insert_items_spec (count : nat) :
  ∀ (i : Z) (bloom : BloomFilter) (hashSet : gset string),
    0 <= i → i + Z.of_nat count <= int_max →
    (1 <= bitArray_size bloom ∨ numHashFunctions bloom <= 0) →
    (∀ s, s ∈ hashSet → ∃ j, j < i ∧ s = item_key j) →
    ∃ bloom' hashSet',
      insert_items count i bloom hashSet = Some (bloom', hashSet')
      ∧ length (bitArray bloom') = length (bitArray bloom)
      ∧ numHashFunctions bloom' = numHashFunctions bloom
      ∧ size hashSet' = (size hashSet + count)%nat.
Proof.
  induction count as [| count IH]; intros i bloom hashSet Hi Hmax Hdef Hinv; simpl.
  - exists bloom, hashSet. repeat split. lia.
  - assert (Hins : ∃ bloom1, insert bloom (item_key i) = Some bloom1).
    { destruct Hdef as [Hm | Hk]; [apply insert_total, Hm |].
      exists bloom. unfold insert.
      replace (Z.to_nat (numHashFunctions bloom)) with 0%nat by lia. reflexivity. }
    destruct Hins as [bloom1 H1]. rewrite H1. simpl.
    pose proof (insert_preserves _ _ _ H1) as (Hlen & Hk1 & _).
    rewrite int_add_in_range by (unfold int_min, int_max in *; lia). simpl.
    destruct (IH (i + 1) bloom1 ({[item_key i]} ∪ hashSet)) as
      (bloom' & hashSet' & Hrun & Hlen' & Hk' & Hsize).
    + lia.
    + lia.
    + unfold bitArray_size in *. rewrite Hlen, Hk1. exact Hdef.
    + intros s Hs. apply elem_of_union in Hs as [Hs | Hs].
      * apply elem_of_singleton in Hs as ->. exists i. split; [lia | reflexivity].
      * destruct (Hinv s Hs) as (j & Hj & ->). exists j. split; [lia | reflexivity].
    + exists bloom', hashSet'. split; [exact Hrun |].
      split; [congruence |]. split; [congruence |].
      rewrite Hsize, size_union, size_singleton; [lia |].
      apply disjoint_singleton_l. intros Hin.
      destruct (Hinv _ Hin) as (j & Hj & E).
      apply item_key_injective in E. lia.
Qed.

(** The second loop: it runs to its end and counts at most one false
    positive per probe; with no hash slot every probe is counted. *)
Lemma count_false_positives_spec (count : nat) (bloom : BloomFilter) :
  (1 <= bitArray_size bloom ∨ numHashFunctions bloom <= 0) →
  ∀ (i falsePositives : Z),
    0 <= i → i + Z.of_nat count <= int_max →
    0 <= falsePositives → falsePositives + Z.of_nat count <= int_max →
    ∃ result,
      count_false_positives count i bloom falsePositives = Some result
      ∧ falsePositives <= result <= falsePositives + Z.of_nat count
      ∧ (numHashFunctions bloom <= 0 → result = falsePositives + Z.of_nat count).
Proof.
  intros Hdef.
  induction count as [| count IH]; intros i fp Hi Hmax Hfp Hfpmax; simpl.
  - exists fp. split; [reflexivity |]. lia.
  - assert (Hhit : ∃ hit, mightContain bloom (item_key i) = Some hit
                          ∧ (numHashFunctions bloom <= 0 → hit = true)).
    { destruct (Z_le_gt_dec (numHashFunctions bloom) 0) as [Hk | Hk].
      - exists true. unfold mightContain.
        replace (Z.to_nat (numHashFunctions bloom)) with 0%nat by lia.
        split; reflexivity.
      - destruct Hdef as [Hm | Hk0]; [| lia].
        destruct (mightContain_loop_total (Z.to_nat (numHashFunctions bloom))
                    (item_key i) 0 bloom Hm) as [hit Hhit].
        exists hit. split; [exact Hhit | lia]. }
    destruct Hhit as (hit & -> & Hall). simpl.
    assert (Hstep : ∃ fp', (if hit then int_add fp 1 else Some fp) = Some fp'
                           ∧ fp <= fp' <= fp + 1
                           ∧ (hit = true → fp' = fp + 1)).
    { destruct hit.
      - exists (fp + 1).
        rewrite int_add_in_range by (unfold int_min, int_max in *; lia).
        repeat split; lia.
      - exists fp. split; [reflexivity |]. split; [lia | discriminate]. }
    destruct Hstep as (fp' & -> & Hfp' & Hone). simpl.
    rewrite int_add_in_range by (unfold int_min, int_max in *; lia). simpl.
    destruct (IH (i + 1) fp') as (result & Hrun & Hres & Hzero); try lia.
    exists result. split; [exact Hrun |]. split; [lia |].
    intros Hk. specialize (Hzero Hk). specialize (Hone (Hall Hk)). lia.
Qed.

Lemma optimalParameters_zero_elements (p : R) : optimalParameters 0 p = None.
Proof.
  destruct (Rlt_dec 0 p) as [Hp | Hp].
  - rewrite optimalParameters_pos by exact Hp.
    rewrite (ceilZ_unique _ 0); [reflexivity |].
    unfold Rdiv. rewrite Rmult_0_l, Ropp_0, Rmult_0_l. lra.
  - apply Rnot_lt_le in Hp. unfold optimalParameters.
    rewrite (c_log_nonpos p) by exact Hp. reflexivity.
Qed.

Section DriverProperties.

Variables sizeof_string sizeof_pointer : Z.

(** One whole run of the driver on a valid configuration. *)
Lemma analyzeConfiguration_run (numItems : Z) (p : R) (m k : Z) :
  1 <= numItems <= int_max - numTests → (0 < p < 1)%R →
  optimalParameters numItems p = Some (m, k) →
  0 <= sizeof_string + sizeof_pointer →
  numItems * (sizeof_string + sizeof_pointer) < size_t_modulus →
  ∃ falsePositives,
    0 <= falsePositives <= numTests
    ∧ (k = 0 → falsePositives = numTests)
    ∧ analyzeConfiguration sizeof_string sizeof_pointer numItems p
      = Some {|
          bloomMemoryKB :=
            Finite (IZR (getMemoryUsage (new_BloomFilter m k)) / 1024)%R;
          hashSetMemoryKB :=
            Finite (IZR (numItems * (sizeof_string + sizeof_pointer)) / 1024)%R;
          savingsPercent :=
            double_map (λ q, (1 - q) * 100)%R
              (double_div
                 (IZR (getMemoryUsage (new_BloomFilter m k)) / 1024)%R
                 (IZR (numItems * (sizeof_string + sizeof_pointer)) / 1024)%R);
          bitsPerItem := Finite (IZR m / IZR numItems)%R;
          actualFPRate := Finite (IZR falsePositives / IZR numTests * 100)%R |}.
Proof.
  intros Hn Hp Hplan Hsz Hfit.
  unfold int_max, numTests, size_t_modulus in *.
  pose proof (optimalParameters_returns_m numItems p m k ltac:(lra) Hplan)
    as [Em Hr].
  assert (Hm : 1 <= m).
  { rewrite Em. apply ceilZ_positive, ideal_m_positive; [lia | exact Hp]. }
  assert (Hsize : bitArray_size (new_BloomFilter m k) = m).
  { apply bitArray_size_new. lia. }
  destruct (insert_items_spec (Z.to_nat numItems) 0 (new_BloomFilter m k) ∅)
    as (bloom & hashSet & Hrun1 & Hlen & Hk & Hcard).
  { lia. } { unfold int_max. lia. } { left. lia. }
  { intros s Hs. apply elem_of_empty in Hs as []. }
  rewrite size_empty in Hcard.
  assert (Hbsize : bitArray_size bloom = m).
  { unfold bitArray_size in *. rewrite Hlen. exact Hsize. }
  destruct (count_false_positives_spec
              (Z.to_nat (numItems + 10000 - numItems)) bloom
              ltac:(left; lia) numItems 0)
    as (fp & Hrun2 & Hfp & Hzero); try (unfold int_max; lia).
  exists fp. split; [lia |]. split.
  { intros ->. rewrite Hzero; [lia |]. simpl in Hk. lia. }
  unfold analyzeConfiguration.
  rewrite (wrap_small numItems) by (unfold size_t_modulus; lia).
  rewrite Hplan. simpl. rewrite Hrun1. simpl.
  rewrite int_add_in_range by (unfold int_min, int_max, numTests; lia). simpl.
  change numTests with 10000. rewrite Hrun2. simpl.
  assert (Hmem : getMemoryUsage bloom = getMemoryUsage (new_BloomFilter m k)).
  { unfold getMemoryUsage. rewrite Hbsize, Hsize. reflexivity. }
  assert (Hset : wrap (Z.of_nat (size hashSet)
                       * wrap (sizeof_string + sizeof_pointer))
                 = numItems * (sizeof_string + sizeof_pointer)).
  { rewrite Hcard.
    rewrite (wrap_small (sizeof_string + sizeof_pointer))
      by (unfold size_t_modulus; nia).
    rewrite wrap_small by (unfold size_t_modulus; nia). f_equal. lia. }
  rewrite Hmem, Hset. unfold getBitArraySize. rewrite Hbsize.
  f_equal. f_equal. unfold double_div.
  destruct (Req_dec_T (IZR numItems) 0) as [E | _]; [| reflexivity].
  apply eq_IZR in E. lia.
Qed.

(** On a valid configuration the driver returns: the reported memory is the
    filter's [getMemoryUsage] in KiB, the set holds exactly [numItems]
    keys, the bits per item are [m / numItems], and the reported
    false-positive rate is a percentage between 0 and 100. *)
Theorem analyzeConfiguration_reports (numItems : Z) (p : R) (m k : Z) :
  1 <= numItems <= int_max - numTests → (0 < p < 1)%R →
  optimalParameters numItems p = Some (m, k) →
  0 <= sizeof_string + sizeof_pointer →
  numItems * (sizeof_string + sizeof_pointer) < size_t_modulus →
  ∃ result rate,
    analyzeConfiguration sizeof_string sizeof_pointer numItems p = Some result
    ∧ bloomMemoryKB result
      = Finite (IZR (getMemoryUsage (new_BloomFilter m k)) / 1024)%R
    ∧ hashSetMemoryKB result
      = Finite (IZR (numItems * (sizeof_string + sizeof_pointer)) / 1024)%R
    ∧ bitsPerItem result = Finite (IZR m / IZR numItems)%R
    ∧ actualFPRate result = Finite rate
    ∧ (0 <= rate <= 100)%R.
Proof.
  intros Hn Hp Hplan Hsz Hfit.
  destruct (analyzeConfiguration_run numItems p m k Hn Hp Hplan Hsz Hfit)
    as (fp & Hfp & _ & ->).
  eexists _, _. split; [reflexivity |]. simpl. repeat split.
  - unfold numTests in *. pose proof (IZR_le _ _ (proj1 Hfp)). lra.
  - unfold numTests in *. pose proof (IZR_le _ _ (proj2 Hfp)). lra.
Qed.

(** When the planner returns no hash function ([k = 0]), the driver's filter
    accepts every probe and the reported false-positive rate is 100 percent. *)
Theorem analyzeConfiguration_zero_hashes_all_false_positives
  (numItems : Z) (p : R) (m : Z) :
  1 <= numItems <= int_max - numTests → (0 < p < 1)%R →
  optimalParameters numItems p = Some (m, 0) →
  0 <= sizeof_string + sizeof_pointer →
  numItems * (sizeof_string + sizeof_pointer) < size_t_modulus →
  ∃ result,
    analyzeConfiguration sizeof_string sizeof_pointer numItems p = Some result
    ∧ actualFPRate result = Finite 100.
Proof.
  intros Hn Hp Hplan Hsz Hfit.
  destruct (analyzeConfiguration_run numItems p m 0 Hn Hp Hplan Hsz Hfit)
    as (fp & _ & Hall & ->).
  eexists. split; [reflexivity |]. simpl. rewrite (Hall eq_refl).
  f_equal. unfold numTests. lra.
Qed.

(** The driver has no defined result for an empty workload (the planner
    divides by zero) nor when [numItems + numTests] overflows [int]. *)
Theorem analyzeConfiguration_undefined (numItems : Z) (p : R) :
  numItems = 0 ∨ int_max - numTests < numItems →
  analyzeConfiguration sizeof_string sizeof_pointer numItems p = None.
Proof.
  intros [-> | Hbig]; unfold analyzeConfiguration.
  - change (wrap 0) with 0. rewrite optimalParameters_zero_elements. reflexivity.
  - destruct (optimalParameters (wrap numItems) p) as [[bloomSize numHashes] |];
      simpl; [| reflexivity].
    destruct (insert_items _ _ _ _) as [[bloom hashSet] |]; simpl; [| reflexivity].
    unfold int_add.
    destruct (Z.leb_spec (numItems + numTests) int_max) as [Hle | _]; [lia |].
    rewrite andb_false_r. reflexivity.
Qed.

(** Every configuration that [printAnalysis] runs is a valid one: the
    planner returns a pair with more bits than items and at least one hash
    function, and [analyzeConfiguration] returns a result whose
    false-positive rate is a percentage between 0 and 100. *)
Theorem printAnalysis_configurations_are_valid (numItems : Z) (p : R) :
  numItems ∈ numItemsList → p ∈ targetFPRates →
  0 <= sizeof_string + sizeof_pointer →
  100000 * (sizeof_string + sizeof_pointer) < size_t_modulus →
  ∃ m k result rate,
    optimalParameters numItems p = Some (m, k)
    ∧ numItems < m ∧ 1 <= k
    ∧ analyzeConfiguration sizeof_string sizeof_pointer numItems p = Some result
    ∧ bitsPerItem result = Finite (IZR m / IZR numItems)%R
    ∧ actualFPRate result = Finite rate
    ∧ (0 <= rate <= 100)%R.
Proof.
  intros Hn Hp Hsz Hfit.
  assert (Hnr : 1000 <= numItems <= 100000).
  { unfold numItemsList in Hn. rewrite !elem_of_cons, elem_of_nil in Hn. lia. }
  assert (Hpr : (1 / 100 <= p <= 1 / 10)%R).
  { unfold targetFPRates in Hp. rewrite !elem_of_cons, elem_of_nil in Hp.
    destruct Hp as [-> | [-> | [-> | []]]]; lra. }
  destruct (planner_returns_in_range numItems p) as (m & k & Hplan).
  { lia. } { lra. }
  { pose proof (IZR_le _ _ (proj1 Hnr)) as Hlo.
    pose proof (IZR_le _ _ (proj2 Hnr)) as Hhi.
    assert (Hinv : (0 < / p <= 100)%R).
    { split; [apply Rinv_0_lt_compat; lra |].
      replace 100%R with (/ (1 / 100))%R by field.
      apply Rinv_le_contravar; lra. }
    apply Rle_trans with (IZR 10000000); [| apply IZR_le; lia].
    unfold Rdiv. nra. }
  destruct (planner_usable_below_one_half numItems p m k) as [Hm Hk];
    [lia | lra | exact Hplan |].
  destruct (analyzeConfiguration_run numItems p m k) as (fp & Hfp & _ & Hrun).
  { unfold int_max, numTests. lia. } { lra. } { exact Hplan. } { exact Hsz. }
  { unfold size_t_modulus in *. nia. }
  exists m, k. eexists _, _. split; [exact Hplan |].
  split; [exact Hm |]. split; [exact Hk |]. split; [exact Hrun |].
  simpl. split; [reflexivity |]. split; [reflexivity |].
  unfold numTests in *.
  pose proof (IZR_le _ _ (proj1 Hfp)). pose proof (IZR_le _ _ (proj2 Hfp)).
  split; lra.
Qed.

End DriverProperties.

Lemma analyzeConfiguration_reports_witness :
  ∃ result rate,
    analyzeConfiguration 32 8 100 (99 / 100) = Some result
    ∧ bloomMemoryKB result
      = Finite (IZR (getMemoryUsage (new_BloomFilter 3 0)) / 1024)%R
    ∧ hashSetMemoryKB result = Finite (IZR (100 * (32 + 8)) / 1024)%R
    ∧ bitsPerItem result = Finite (IZR 3 / IZR 100)%R
    ∧ actualFPRate result = Finite rate
    ∧ (0 <= rate <= 100)%R.
Proof.
  apply (analyzeConfiguration_reports 32 8 100 (99 / 100)%R 3 0).
  - unfold int_max, numTests. lia.
  - lra.
  - apply optimalParameters_100_099.
  - lia.
  - unfold size_t_modulus. lia.
Defined.

Lemma analyzeConfiguration_zero_hashes_all_false_positives_witness :
  ∃ result,
    analyzeConfiguration 32 8 100 (99 / 100) = Some result
    ∧ actualFPRate result = Finite 100.
Proof.
  apply (analyzeConfiguration_zero_hashes_all_false_positives 32 8 100
           (99 / 100)%R 3).
  - unfold int_max, numTests. lia.
  - lra.
  - apply optimalParameters_100_099.
  - lia.
  - unfold size_t_modulus. lia.
Defined.

Lemma analyzeConfiguration_undefined_witness :
  analyzeConfiguration 32 8 0 (1 / 100) = None.
Proof.
  apply analyzeConfiguration_undefined. left. reflexivity.
Defined.

Lemma printAnalysis_configurations_are_valid_witness :
  ∃ m k result rate,
    optimalParameters 1000 (1 / 100) = Some (m, k)
    ∧ 1000 < m ∧ 1 <= k
    ∧ analyzeConfiguration 32 8 1000 (1 / 100) = Some result
    ∧ bitsPerItem result = Finite (IZR m / IZR 1000)%R
    ∧ actualFPRate result = Finite rate
    ∧ (0 <= rate <= 100)%R.
Proof.
  apply (printAnalysis_configurations_are_valid 32 8 1000 (1 / 100)%R).
  - unfold numItemsList. apply list_elem_of_here.
  - unfold targetFPRates. apply list_elem_of_here.
  - lia.
  - unfold size_t_modulus. lia.
Defined.

(** ** Sizing monotonicity and the range of [size_t] *)






